(** * stats-insta: the message statistics of [src/App.tsx]

    A shallow embedding of the pure core of the chat-archive viewer: the
    text decoders, the message filter, the two aggregations, the
    chronological selectors and the upload handler, followed by the
    properties the specification states about them. *)

From Stdlib Require Import String Ascii List ZArith NArith Bool Lia.
From Stdlib Require Import Permutation Sorted.
Import ListNotations.

Set Implicit Arguments.

(** ** JavaScript strings

    A JavaScript string is a sequence of UTF-16 code units.  [lit] reads an
    ASCII literal of the source as such a sequence. *)

Definition jsstring : Type := list N.

Definition lit (s : string) : jsstring :=
  map N_of_ascii (list_ascii_of_string s).

Definition jsstring_eqb (a b : jsstring) : bool :=
  if list_eq_dec N.eq_dec a b then true else false.

(** [String.prototype.includes]: does [needle] occur in [s] as a contiguous
    run of code units? *)
Fixpoint startsWith (s needle : jsstring) {struct needle} : bool :=
  match needle with
  | [] => true
  | n :: needle' =>
      match s with
      | [] => false
      | c :: s' => N.eqb c n && startsWith s' needle'
      end
  end.

Fixpoint includes (s needle : jsstring) : bool :=
  startsWith s needle
  || match s with
     | [] => false
     | _ :: s' => includes s' needle
     end.

(** The declarative reading of "contains the substring". *)
Definition Contains (s needle : jsstring) : Prop :=
  exists pre post, s = pre ++ needle ++ post.

(** The code units [String.prototype.trim] strips: ECMAScript's WhiteSpace
    and LineTerminator productions. *)
Definition isWhiteSpace (c : N) : bool :=
  ((9 <=? c) && (c <=? 13) || (c =? 32) || (c =? 160) || (c =? 5760)
   || (8192 <=? c) && (c <=? 8202)
   || (c =? 8232) || (c =? 8233) || (c =? 8239) || (c =? 8287)
   || (c =? 12288) || (c =? 65279))%N.

Fixpoint trimStart (s : jsstring) : jsstring :=
  match s with
  | c :: s' => if isWhiteSpace c then trimStart s' else s
  | [] => []
  end.

Definition trimEnd (s : jsstring) : jsstring := rev (trimStart (rev s)).

Definition trim (s : jsstring) : jsstring := trimEnd (trimStart s).

(** A text that does not begin with white space. *)
Definition noLeadingSpace (s : jsstring) : Prop :=
  match s with
  | [] => True
  | c :: _ => isWhiteSpace c = false
  end.

(** The test of the regular expression [/[^\u0000-\u007F]/] on one code
    unit. *)
Definition nonAscii (c : N) : bool := (127 <? c)%N.

Definition lowerAscii (c : N) : N :=
  if ((65 <=? c) && (c <=? 90))%N then (c + 32)%N else c.

(** ** Messages *)

Record Message : Type := mkMessage {
  sender_name : jsstring;
  content : jsstring;
  timestamp_ms : option Z
}.

Definition withContent (msg : Message) (c : jsstring) : Message :=
  {| sender_name := sender_name msg;
     content := c;
     timestamp_ms := timestamp_ms msg |}.

Section Filter.

(** [String.prototype.toLowerCase] follows the Unicode case tables of the
    host.  On a string of ASCII code units it lowers [A-Z] and nothing
    else; what the host does to a string that holds any other code unit is
    left to [unicodeLower]. *)
Variable unicodeLower : jsstring -> jsstring.

Definition toLowerCase (s : jsstring) : jsstring :=
  if existsb nonAscii s then unicodeLower s else map lowerAscii s.

(** The predicate handed to [Array.prototype.filter] in [filterMessages];
    the empty string is the only falsy string. *)
Definition keepMessage (msg : Message) : bool :=
  negb (jsstring_eqb (content msg) [])
  && negb (includes (toLowerCase (content msg)) (lit "liked a message"))
  && negb (includes (toLowerCase (content msg)) (lit "attachment"))
  && negb (includes (toLowerCase (content msg)) (lit "like"))
  && negb (existsb nonAscii (content msg)).

Definition filterMessages (messages : list Message) : list Message :=
  filter keepMessage
    (map (fun msg => withContent msg (trim (content msg))) messages).

(** The rule of the filter in the words of the specification, over the
    trimmed content [c]. *)
Definition Dropped (c : jsstring) : Prop :=
  c = []
  \/ Contains (toLowerCase c) (lit "liked a message")
  \/ Contains (toLowerCase c) (lit "attachment")
  \/ Contains (toLowerCase c) (lit "like")
  \/ exists u, In u c /\ (127 < u)%N.

End Filter.

(** ** Arrays

    [Array.prototype.sort] is stable, and with a consistent comparator its
    result is the one stable ordering of the input.  [sortBy] computes it
    by insertion from the right: an element goes in front of the first
    element it does not compare greater than, hence in front of its
    equals, which all came after it.  [cmp a b] is the number the
    comparator returns.  Under a comparator that is not consistent the
    language leaves the order to the implementation; [sortBy] then gives
    one of the orders allowed. *)

Section Arrays.

Variable A : Type.

Section Sort.

Variable cmp : A -> A -> Z.

Fixpoint insertBy (x : A) (l : list A) : list A :=
  match l with
  | [] => [x]
  | y :: l' => if (0 <? cmp x y)%Z then y :: insertBy x l' else x :: l
  end.

Definition sortBy (l : list A) : list A := fold_right insertBy [] l.

End Sort.

(** The comparator that subtracts a numeric key, and the order it sorts
    into. *)
Definition byKey (key : A -> Z) (a b : A) : Z := (key a - key b)%Z.

Definition keyLe (key : A -> Z) (a b : A) : Prop := (key a <= key b)%Z.

(** The index arithmetic of [Array.prototype.slice]: a negative argument
    counts from the end, and every argument is clamped to [0..len]. *)
Definition relativeIndex (len i : Z) : Z :=
  if (i <? 0)%Z then Z.max (len + i) 0 else Z.min i len.

Definition slice (l : list A) (start finish : Z) : list A :=
  let len := Z.of_nat (length l) in
  let k := relativeIndex len start in
  let final := relativeIndex len finish in
  firstn (Z.to_nat (final - k)) (skipn (Z.to_nat k) l).

(** [slice(start)], the end left out. *)
Definition sliceFrom (l : list A) (start : Z) : list A :=
  slice l start (Z.of_nat (length l)).

(** The last [n] elements of a list. *)
Definition lastElements (n : nat) (l : list A) : list A :=
  skipn (length l - n) l.

End Arrays.

(** ** TemporalSelector *)

(** Truthiness of [msg.timestamp_ms]: [undefined] and [0] are falsy. *)
Definition truthyNumber (t : option Z) : bool :=
  match t with
  | Some z => negb (z =? 0)%Z
  | None => false
  end.

(** [msg.timestamp_ms!] inside the comparator.  The comparator only ever
    sees messages that passed the filter, so the [None] branch is never
    taken there. *)
Definition timestampOf (msg : Message) : Z :=
  match timestamp_ms msg with
  | Some z => z
  | None => 0
  end.

Definition getSortedMessagesAscending (messages : list Message) : list Message :=
  sortBy (fun a b => (timestampOf a - timestampOf b)%Z)
    (filter (fun msg => truthyNumber (timestamp_ms msg)) messages).

Definition getLatestMessages (messages : list Message) (count : Z) : list Message :=
  let sortedMessages := getSortedMessagesAscending messages in
  sliceFrom sortedMessages (- count).

Definition getEarliestMessages (messages : list Message) (count : Z) : list Message :=
  let sortedMessages := getSortedMessagesAscending messages in
  slice sortedMessages 0 count.

(** ** Plain objects used as maps

    [messageCounts] and [userMessages] are object literals indexed by
    arbitrary text.  An object keeps its own properties in creation order,
    but enumerates them ([Object.keys], [Object.entries], [Object.values])
    with the array indices first, in ascending numeric order, and the
    other keys after them in creation order.  A read that finds no own
    property continues in [Object.prototype]. *)

Definition digitValue (c : N) : option N :=
  if ((48 <=? c) && (c <=? 57))%N then Some (c - 48)%N else None.

Fixpoint parseDigits (acc : N) (s : jsstring) : option N :=
  match s with
  | [] => Some acc
  | c :: s' =>
      match digitValue c with
      | Some d => parseDigits (10 * acc + d)%N s'
      | None => None
      end
  end.

(** A key is an array index when it is the canonical decimal form of an
    integer between 0 and 2^32 - 2. *)
Definition arrayIndex (k : jsstring) : option N :=
  match k with
  | [] => None
  | c :: rest =>
      if (c =? 48)%N then
        match rest with
        | [] => Some 0%N
        | _ :: _ => None
        end
      else
        match parseDigits 0 k with
        | Some n => if (n <=? 4294967294)%N then Some n else None
        | None => None
        end
  end.

Definition isIndexKey (k : jsstring) : bool :=
  match arrayIndex k with
  | Some _ => true
  | None => false
  end.

Definition indexOfKey (k : jsstring) : Z :=
  match arrayIndex k with
  | Some n => Z.of_N n
  | None => 0
  end.

(** The members every object literal inherits from [Object.prototype]. *)
Definition objectPrototypeMembers : list jsstring :=
  map lit
    ["constructor"; "__defineGetter__"; "__defineSetter__"; "hasOwnProperty";
     "__lookupGetter__"; "__lookupSetter__"; "isPrototypeOf";
     "propertyIsEnumerable"; "toString"; "valueOf"; "__proto__";
     "toLocaleString"]%string.

Definition inherited (k : jsstring) : bool :=
  existsb (jsstring_eqb k) objectPrototypeMembers.

Section Objects.

Variable V : Type.

Definition object : Type := list (jsstring * V).

Fixpoint ownGet (o : object) (k : jsstring) : option V :=
  match o with
  | [] => None
  | (k', v) :: o' => if jsstring_eqb k' k then Some v else ownGet o' k
  end.

(** Assignment to an own property: an existing one keeps its place, a new
    one is created last. *)
Fixpoint ownSet (o : object) (k : jsstring) (v : V) : object :=
  match o with
  | [] => [(k, v)]
  | (k', v') :: o' =>
      if jsstring_eqb k' k then (k', v) :: o' else (k', v') :: ownSet o' k v
  end.

Definition isIndexed (e : jsstring * V) : bool := isIndexKey (fst e).

Definition indexOf (e : jsstring * V) : Z := indexOfKey (fst e).

Definition entries (o : object) : list (jsstring * V) :=
  sortBy (fun a b => (indexOf a - indexOf b)%Z) (filter isIndexed o)
  ++ filter (fun e => negb (isIndexed e)) o.

Definition keys (o : object) : list jsstring := map fst (entries o).

Definition values (o : object) : list V := map snd (entries o).

End Objects.

(** *** The aggregations in the words of the specification

    [distinct] lists the different texts of a sequence in the order of
    their first occurrence, [occurrences] counts one of them, and
    [enumerationOrder] is the order in which an object that received the
    keys [ks], in that order, enumerates them.  [ranking] is the table of
    keys and counts, in descending order of count, equal counts in the
    order of [ks], cut after seven rows. *)

Fixpoint distinct (l : list jsstring) : list jsstring :=
  match l with
  | [] => []
  | k :: l' => k :: filter (fun k' => negb (jsstring_eqb k' k)) (distinct l')
  end.

Definition occurrences (k : jsstring) (l : list jsstring) : nat :=
  length (filter (jsstring_eqb k) l).

Definition enumerationOrder (ks : list jsstring) : list jsstring :=
  sortBy (byKey indexOfKey) (filter isIndexKey ks)
  ++ filter (fun k => negb (isIndexKey k)) ks.

Definition tableOf (V : Type) (f : jsstring -> V) (ks : list jsstring) : object V :=
  map (fun k => (k, f k)) ks.

Definition rankingAll (count : jsstring -> nat) (ks : list jsstring)
    : list (jsstring * nat) :=
  sortBy (fun a b => Z.of_nat (snd b) - Z.of_nat (snd a))%Z (tableOf count ks).

Definition ranking (count : jsstring -> nat) (ks : list jsstring)
    : list (jsstring * nat) :=
  firstn 7 (rankingAll count ks).

(** The order of the rows of a ranking. *)
Definition descending (a b : jsstring * nat) : Prop := (snd b <= snd a)%nat.

Definition jsstring_in_dec (k : jsstring) (l : list jsstring) :
  {In k l} + {~ In k l} := in_dec (list_eq_dec N.eq_dec) k l.

(** What the charting layer receives: the labels, and the [data] array of
    each dataset. *)
Record Chart (V : Type) : Type := mkChart {
  labels : list jsstring;
  datasets : list (list V)
}.

(** ** Aggregator: content frequency *)

(** A value stored in [messageCounts].  It is a number, unless the key
    names a member of [Object.prototype]: the first read then yields that
    member, [|| 0] keeps it, and [+ 1] turns it into text, the member's
    source text followed by the character 1, to which every later round
    appends another 1. *)
Inductive tally : Type :=
| Count (n : nat)
| Junk (ones : nat).

(** [messageCounts[k] = (messageCounts[k] || 0) + 1].  Under the key
    [__proto__] the assignment reaches the inherited setter, which ignores
    text, so no property appears. *)
Definition tallyMessage (messageCounts : object tally) (k : jsstring) : object tally :=
  match ownGet messageCounts k with
  | Some (Count n) => ownSet messageCounts k (Count (n + 1))
  | Some (Junk ones) => ownSet messageCounts k (Junk (S ones))
  | None =>
      if jsstring_eqb k (lit "__proto__") then messageCounts
      else if inherited k then ownSet messageCounts k (Junk 1)
      else ownSet messageCounts k (Count 1)
  end.

(** [b[1] - a[1]]: text that is not a numeral subtracts to NaN, which
    [sort] reads as 0. *)
Definition tallyDifference (a b : tally) : Z :=
  match b, a with
  | Count nb, Count na => Z.of_nat nb - Z.of_nat na
  | _, _ => 0
  end.

Definition getTopMessages (unicodeLower : jsstring -> jsstring)
    (messages : list Message) : Chart tally :=
  let filteredMessages := filterMessages unicodeLower messages in
  let messageCounts :=
    fold_left (fun o msg => tallyMessage o (content msg)) filteredMessages [] in
  let sortedMessages :=
    slice (sortBy (fun a b => tallyDifference (snd a) (snd b)) (entries messageCounts)) 0 7 in
  {| labels := map fst sortedMessages;
     datasets := [map snd sortedMessages] |}.

(** ** Aggregator: sender counts *)

Definition UserMessages : Type := object (list Message).

(** [data[user].length] for a key [user] of [data]. *)
Definition messageCount (data : UserMessages) (user : jsstring) : nat :=
  match ownGet data user with
  | Some msgs => length msgs
  | None => 0
  end.

Definition getChartData (data : option UserMessages) : Chart nat :=
  match data with
  | None => {| labels := []; datasets := [] |}
  | Some data =>
      let userLabels := keys data in
      let messageCounts := map (fun user => (user, messageCount data user)) userLabels in
      let topUsers :=
        slice (sortBy (fun a b => Z.of_nat (snd b) - Z.of_nat (snd a))%Z messageCounts) 0 7 in
      {| labels := map fst topUsers;
         datasets := [map snd topUsers] |}
  end.

(** ** TextNormalizer

    Both decoders end in the same UTF-8 reading of a byte sequence:
    [utf8.decode] (the [utf8] package) reads the code units of its argument
    as bytes, [decodeURIComponent] reads the octets written as
    percent-escapes.  [decodeSymbols] is that reading over any kind of
    item: [octet] gives the byte an item stands for, and an item that
    stands for none is a plain code unit, kept as [literal] gives it.  The
    result is the decoded text, [None] when the decoder throws. *)

(** A code point in UTF-16: above [0xFFFF] it becomes a surrogate pair. *)
Definition utf16 (value : N) : jsstring :=
  if (65535 <? value)%N then
    let v := (value - 65536)%N in
    [N.lor (N.land (N.shiftr v 10) 1023) 55296; N.lor 56320 (N.land v 1023)]
  else [value].

(** A decoded code point joins the output in UTF-16; a plain code unit
    joins it as it is. *)
Definition emit (codePoint : N) (r : option jsstring) : option jsstring :=
  option_map (app (utf16 codePoint)) r.

Definition keep (c : N) (r : option jsstring) : option jsstring :=
  option_map (cons c) r.

Section Utf8.

Variable T : Type.
Variable octet : T -> option N.
Variable literal : T -> N.

(** A continuation byte [10xxxxxx], reduced to its six payload bits. *)
Definition continuation (i : T) : option N :=
  match octet i with
  | Some b => if (N.land b 192 =? 128)%N then Some (N.land b 63) else None
  | None => None
  end.

Fixpoint decodeSymbols (items : list T) : option jsstring :=
  match items with
  | [] => Some []
  | i1 :: r1 =>
      match octet i1 with
      | None => keep (literal i1) (decodeSymbols r1)
      | Some b1 =>
          if (N.land b1 128 =? 0)%N then emit b1 (decodeSymbols r1)
          else if (N.land b1 224 =? 192)%N then
            match r1 with
            | i2 :: r2 =>
                match continuation i2 with
                | Some b2 =>
                    let codePoint := N.lor (N.shiftl (N.land b1 31) 6) b2 in
                    if (128 <=? codePoint)%N
                    then emit codePoint (decodeSymbols r2)
                    else None
                | None => None
                end
            | _ => None
            end
          else if (N.land b1 240 =? 224)%N then
            match r1 with
            | i2 :: i3 :: r3 =>
                match continuation i2, continuation i3 with
                | Some b2, Some b3 =>
                    let codePoint :=
                      N.lor (N.shiftl (N.land b1 15) 12) (N.lor (N.shiftl b2 6) b3) in
                    if ((2048 <=? codePoint)
                        && negb ((55296 <=? codePoint) && (codePoint <=? 57343)))%N
                    then emit codePoint (decodeSymbols r3)
                    else None
                | _, _ => None
                end
            | _ => None
            end
          else if (N.land b1 248 =? 240)%N then
            match r1 with
            | i2 :: i3 :: i4 :: r4 =>
                match continuation i2, continuation i3, continuation i4 with
                | Some b2, Some b3, Some b4 =>
                    let codePoint :=
                      N.lor (N.shiftl (N.land b1 7) 18)
                        (N.lor (N.shiftl b2 12) (N.lor (N.shiftl b3 6) b4)) in
                    if ((65536 <=? codePoint) && (codePoint <=? 1114111))%N
                    then emit codePoint (decodeSymbols r4)
                    else None
                | _, _, _ => None
                end
            | _ => None
            end
          else None
      end
  end.

End Utf8.

(** UTF-16 to code points, as [utf8.decode] prepares its argument: a
    surrogate pair counts as one value, a lone surrogate as itself. *)
Fixpoint ucs2decode (s : jsstring) : list N :=
  match s with
  | [] => []
  | value :: s' =>
      match s' with
      | extra :: s'' =>
          if ((55296 <=? value) && (value <=? 56319))%N then
            if (N.land extra 64512 =? 56320)%N
            then (N.shiftl (N.land value 1023) 10 + N.land extra 1023 + 65536)%N
                   :: ucs2decode s''
            else value :: ucs2decode s'
          else value :: ucs2decode s'
      | [] => [value]
      end
  end.

(** [utf8.decode]: every value is read through [& 0xFF]. *)
Definition utf8decode (byteString : jsstring) : option jsstring :=
  decodeSymbols (fun c => Some (N.land c 255)) (fun c => c) (ucs2decode byteString).

(** *** decodeURIComponent *)

Definition hexValue (c : N) : option N :=
  if ((48 <=? c) && (c <=? 57))%N then Some (c - 48)%N
  else if ((65 <=? c) && (c <=? 70))%N then Some (c - 55)%N
  else if ((97 <=? c) && (c <=? 102))%N then Some (c - 87)%N
  else None.

Definition isHexDigit (c : N) : bool :=
  match hexValue c with
  | Some _ => true
  | None => false
  end.

Inductive uriToken : Type :=
| Literal (c : N)
| Octet (b : N).

(** Every [%] must open an escape of two hexadecimal digits. *)
Fixpoint uriTokens (s : jsstring) : option (list uriToken) :=
  match s with
  | [] => Some []
  | c :: r =>
      if (c =? 37)%N then
        match r with
        | h1 :: h2 :: r' =>
            match hexValue h1, hexValue h2 with
            | Some a, Some b =>
                option_map (cons (Octet (16 * a + b)%N)) (uriTokens r')
            | _, _ => None
            end
        | _ => None
        end
      else option_map (cons (Literal c)) (uriTokens r)
  end.

Definition tokenOctet (t : uriToken) : option N :=
  match t with
  | Octet b => Some b
  | Literal _ => None
  end.

Definition tokenLiteral (t : uriToken) : N :=
  match t with
  | Octet b => b
  | Literal c => c
  end.

(** [decodeURIComponent]; [None] stands for the URIError it throws. *)
Definition decodeURIComponent (s : jsstring) : option jsstring :=
  match uriTokens s with
  | Some tokens => decodeSymbols tokenOctet tokenLiteral tokens
  | None => None
  end.

(** [replace(/\\u([0-9a-fA-F]{4})/g, "%u$1")]: every match, left to
    right, has its backslash turned into a percent sign. *)
Fixpoint replaceEscapes (s : jsstring) : jsstring :=
  match s with
  | [] => []
  | c :: r =>
      match r with
      | u :: h1 :: h2 :: h3 :: h4 :: r' =>
          if ((c =? 92) && (u =? 117))%N
             && isHexDigit h1 && isHexDigit h2 && isHexDigit h3 && isHexDigit h4
          then 37%N :: 117%N :: h1 :: h2 :: h3 :: h4 :: replaceEscapes r'
          else c :: replaceEscapes r
      | _ => c :: replaceEscapes r
      end
  end.

(** Does the regular expression match anywhere in [s]? *)
Fixpoint hasEscape (s : jsstring) : bool :=
  match s with
  | [] => false
  | c :: r =>
      match r with
      | u :: h1 :: h2 :: h3 :: h4 :: _ =>
          ((c =? 92) && (u =? 117))%N
          && isHexDigit h1 && isHexDigit h2 && isHexDigit h3 && isHexDigit h4
      | _ => false
      end
      || hasEscape r
  end.

(** The [catch] branch returns the argument. *)
Definition decodeUnicode (unicodeString : jsstring) : jsstring :=
  match decodeURIComponent (replaceEscapes unicodeString) with
  | Some decoded => decoded
  | None => unicodeString
  end.

(** ** IngestOrchestrator *)

(** A record of the uploaded document; any of its fields may be missing. *)
Record RawMessage : Type := mkRawMessage {
  raw_sender_name : option jsstring;
  raw_content : option jsstring;
  raw_timestamp_ms : option Z
}.

(** [v || ""] *)
Definition orEmpty (v : option jsstring) : jsstring :=
  match v with
  | Some s => s
  | None => []
  end.

Inductive LogEntry : Type :=
| ErrorParsingJSON
| ErrorDecodingMessage.

(** The body of the inner [try]; [None] when it throws.  The two decodings
    may throw, and so does [push] when [userMessages[decodedSenderName]]
    is an inherited member rather than an array of the object's own. *)
Definition incorporate (userMessages : UserMessages) (msg : RawMessage)
    : option UserMessages :=
  let content := orEmpty (raw_content msg) in
  let senderName := orEmpty (raw_sender_name msg) in
  match utf8decode content with
  | None => None
  | Some decodedContent =>
      match utf8decode senderName with
      | None => None
      | Some decodedSenderName =>
          let entry :=
            {| sender_name := decodedSenderName;
               content := decodedContent;
               timestamp_ms := raw_timestamp_ms msg |} in
          match ownGet userMessages decodedSenderName with
          | Some msgs => Some (ownSet userMessages decodedSenderName (msgs ++ [entry]))
          | None =>
              if inherited decodedSenderName then None
              else Some (ownSet userMessages decodedSenderName [entry])
          end
      end
  end.

(** The records that come through: both texts decode and the sender's
    name is not that of an inherited member. *)
Definition decodeRecord (msg : RawMessage) : option Message :=
  match utf8decode (orEmpty (raw_content msg)),
        utf8decode (orEmpty (raw_sender_name msg)) with
  | Some decodedContent, Some decodedSenderName =>
      if inherited decodedSenderName then None
      else Some {| sender_name := decodedSenderName;
                   content := decodedContent;
                   timestamp_ms := raw_timestamp_ms msg |}
  | _, _ => None
  end.

Definition ingested (messages : list RawMessage) : list Message :=
  flat_map
    (fun msg =>
       match decodeRecord msg with
       | Some entry => [entry]
       | None => []
       end)
    messages.

(** The mapping of the specification: every sender of [kept], in order of
    first appearance, with that sender's messages in their order. *)
Definition bySender (kept : list Message) (s : jsstring) : list Message :=
  filter (fun m => jsstring_eqb (sender_name m) s) kept.

Definition grouped (kept : list Message) : UserMessages :=
  tableOf (bySender kept) (distinct (map sender_name kept)).

(** The callback of [messages.forEach], with its [catch]. *)
Definition forEachStep (userMessages : UserMessages) (msg : RawMessage)
    : UserMessages * list LogEntry :=
  match incorporate userMessages msg with
  | Some userMessages' => (userMessages', [])
  | None => (userMessages, [ErrorDecodingMessage])
  end.

(** [messages.forEach]: an element that is [null] (here [None]) makes the
    callback throw before its [try], which ends the loop.  The result is
    the mapping built, or [None] when the loop threw, with what was logged
    on the way. *)
Fixpoint forEachMessage (messages : list (option RawMessage))
    (userMessages : UserMessages) : option UserMessages * list LogEntry :=
  match messages with
  | [] => (Some userMessages, [])
  | None :: _ => (None, [])
  | Some msg :: rest =>
      let (userMessages', logged) := forEachStep userMessages msg in
      let (result, logged') := forEachMessage rest userMessages' in
      (result, logged ++ logged')
  end.

(** What [JSON.parse] and the read of [json.messages] can come to. *)
Inductive ParseOutcome : Type :=
| SyntaxError
| NoMessageArray
| MessageArray (messages : list (option RawMessage)).

Record AppState : Type := mkAppState {
  data : option UserMessages;
  console : list LogEntry
}.

(** [reader.onload] *)
Definition onload (st : AppState) (parsed : ParseOutcome) : AppState :=
  match parsed with
  | SyntaxError | NoMessageArray =>
      {| data := data st; console := console st ++ [ErrorParsingJSON] |}
  | MessageArray messages =>
      match forEachMessage messages [] with
      | (Some userMessages, logged) =>
          {| data := Some userMessages; console := console st ++ logged |}
      | (None, logged) =>
          {| data := data st; console := console st ++ logged ++ [ErrorParsingJSON] |}
      end
  end.

(** [allMessages], the flat list the charts and lists are computed from. *)
Definition allMessages (data : option UserMessages) : list Message :=
  match data with
  | Some data =>
      map (fun msg => withContent msg (decodeUnicode (content msg)))
        (concat (values data))
  | None => []
  end.

(** The two lists the page shows, six messages each. *)
Definition latestMessages (data : option UserMessages) : list Message :=
  getLatestMessages (allMessages data) 6.

Definition earliestMessages (data : option UserMessages) : list Message :=
  getEarliestMessages (allMessages data) 6.

(** What holds of every mapping the handler installs: no sender twice, no
    sender under an inherited name, no sender without a message, and
    under each sender only messages of that sender. *)
Definition wellGrouped (um : UserMessages) : Prop :=
  NoDup (map fst um)
  /\ forall s msgs, In (s, msgs) um ->
       inherited s = false
       /\ msgs <> []
       /\ Forall (fun m => sender_name m = s) msgs.

(** What the callback logs for a record. *)
Definition skippedLog (msg : RawMessage) : list LogEntry :=
  match decodeRecord msg with
  | Some _ => []
  | None => [ErrorDecodingMessage]
  end.

(** A record as it stands, its missing texts empty and nothing decoded. *)
Definition plainRecord (msg : RawMessage) : Message :=
  {| sender_name := orEmpty (raw_sender_name msg);
     content := orEmpty (raw_content msg);
     timestamp_ms := raw_timestamp_ms msg |}.

Definition isAscii (s : jsstring) : Prop := Forall (fun c => (c < 128)%N) s.

(** ** Facts about the string primitives *)

Lemma startsWith_spec s needle :
  startsWith s needle = true <-> exists post, s = needle ++ post.
Proof.
  revert s; induction needle as [|n needle IH]; intros s; simpl.
  - split; [intros _; now exists s | reflexivity].
  - destruct s as [|c s]; simpl.
    + split; [discriminate | intros [post H]; discriminate].
    + rewrite andb_true_iff, N.eqb_eq, IH. split.
      * intros [-> [post ->]]. now exists post.
      * intros [post H]. injection H as -> ->. split; [reflexivity | now exists post].
Qed.

Lemma includes_spec s needle :
  includes s needle = true <-> Contains s needle.
Proof.
  unfold Contains. induction s as [|c s IH].
  - cbn [includes]. rewrite orb_false_r, startsWith_spec. split.
    + intros [post H]. now exists [], post.
    + intros [pre [post H]]. destruct pre; simpl in H.
      * now exists post.
      * discriminate.
  - cbn [includes]. rewrite orb_true_iff, startsWith_spec, IH. split.
    + intros [[post H] | [pre [post H]]].
      * now exists [], post.
      * exists (c :: pre), post. simpl. now rewrite H.
    + intros [pre [post H]]. destruct pre as [|p pre]; simpl in H.
      * left. now exists post.
      * right. injection H as _ H. now exists pre, post.
Qed.

Lemma jsstring_eqb_eq a b : jsstring_eqb a b = true <-> a = b.
Proof.
  unfold jsstring_eqb. destruct (list_eq_dec N.eq_dec a b); split; congruence.
Qed.

Lemma existsb_nonAscii s :
  existsb nonAscii s = true <-> exists c, In c s /\ (127 < c)%N.
Proof.
  rewrite existsb_exists. unfold nonAscii.
  split; intros [c [H1 H2]]; exists c; split; auto; now apply N.ltb_lt.
Qed.

(** ** Facts about [sortBy]

    [sortBy] permutes its input whatever the comparator.  For a comparator
    that subtracts a numeric key, [key a - key b], the result is ascending
    in the key and keeps elements of equal key in their input order: the
    two together determine it. *)

Section SortFacts.

Variable A : Type.

Lemma insertBy_perm (cmp : A -> A -> Z) x l :
  Permutation (insertBy cmp x l) (x :: l).
Proof.
  induction l as [|y l IH]; simpl.
  - apply Permutation_refl.
  - destruct (0 <? cmp x y)%Z.
    + apply perm_trans with (y :: x :: l).
      * now apply perm_skip.
      * apply perm_swap.
    + apply Permutation_refl.
Qed.

Lemma sortBy_perm (cmp : A -> A -> Z) l : Permutation (sortBy cmp l) l.
Proof.
  induction l as [|x l IH]; simpl.
  - apply perm_nil.
  - eapply perm_trans; [apply insertBy_perm | now apply perm_skip].
Qed.

Lemma sortBy_length (cmp : A -> A -> Z) l : length (sortBy cmp l) = length l.
Proof. apply Permutation_length, sortBy_perm. Qed.

Lemma sortBy_In (cmp : A -> A -> Z) l x : In x (sortBy cmp l) <-> In x l.
Proof.
  split; apply Permutation_in;
    [apply sortBy_perm | apply Permutation_sym, sortBy_perm].
Qed.

Lemma insertBy_ext (c1 c2 : A -> A -> Z) x l :
  (forall y, In y l -> c1 x y = c2 x y) ->
  insertBy c1 x l = insertBy c2 x l.
Proof.
  induction l as [|y l IH]; intros H; simpl; [reflexivity|].
  rewrite (H y (or_introl eq_refl)).
  destruct (0 <? c2 x y)%Z; [|reflexivity].
  f_equal. apply IH. intros z Hz. apply H. now right.
Qed.

Lemma sortBy_ext (c1 c2 : A -> A -> Z) l :
  (forall x y, In x l -> In y l -> c1 x y = c2 x y) ->
  sortBy c1 l = sortBy c2 l.
Proof.
  induction l as [|x l IH]; intros H; simpl; [reflexivity|].
  rewrite IH by (intros; apply H; now right).
  apply insertBy_ext. intros y Hy. apply H; [now left|].
  right. now apply (sortBy_In c2 l y).
Qed.

Variable key : A -> Z.

Lemma insertBy_sorted x l :
  StronglySorted (keyLe key) l -> StronglySorted (keyLe key) (insertBy (byKey key) x l).
Proof.
  induction l as [|y l IH]; intros Hs; simpl.
  - constructor; constructor.
  - inversion Hs as [|? ? Hl Hy]; subst.
    unfold byKey at 1. destruct (Z.ltb_spec 0 (key x - key y)) as [Hlt|Hge].
    + constructor; [now apply IH|].
      rewrite Forall_forall. intros z Hz.
      apply (Permutation_in _ (insertBy_perm (byKey key) x l)) in Hz.
      destruct Hz as [<-|Hz].
      * unfold keyLe; lia.
      * rewrite Forall_forall in Hy. now apply Hy.
    + constructor; [assumption|].
      constructor; [unfold keyLe; lia|].
      rewrite Forall_forall in Hy |- *. intros z Hz.
      specialize (Hy z Hz). unfold keyLe in *; lia.
Qed.

Lemma sortBy_sorted l : StronglySorted (keyLe key) (sortBy (byKey key) l).
Proof.
  induction l as [|x l IH]; simpl.
  - constructor.
  - now apply insertBy_sorted.
Qed.

Lemma insertBy_stable v x l :
  filter (fun a => key a =? v)%Z (insertBy (byKey key) x l)
  = filter (fun a => key a =? v)%Z (x :: l).
Proof.
  induction l as [|y l IH]; [reflexivity|].
  cbn [insertBy]. unfold byKey at 1.
  destruct (Z.ltb_spec 0 (key x - key y)) as [Hlt|Hge]; [|reflexivity].
  cbn [filter] in *. rewrite IH.
  destruct (Z.eqb_spec (key x) v) as [Hx|Hx];
    destruct (Z.eqb_spec (key y) v) as [Hy|Hy]; try reflexivity.
  lia.
Qed.

Lemma sortBy_stable v l :
  filter (fun a => key a =? v)%Z (sortBy (byKey key) l)
  = filter (fun a => key a =? v)%Z l.
Proof.
  induction l as [|x l IH]; [reflexivity|].
  cbn [sortBy fold_right]. fold (sortBy (byKey key) l).
  rewrite insertBy_stable. cbn [filter]. now rewrite IH.
Qed.

(** Sorting what is already ascending changes nothing. *)
Lemma sortBy_sorted_id l : StronglySorted (keyLe key) l -> sortBy (byKey key) l = l.
Proof.
  induction l as [|x l IH]; intros Hs; [reflexivity|].
  inversion Hs as [|? ? Hl Hx]; subst.
  cbn [sortBy fold_right]. fold (sortBy (byKey key) l). rewrite IH by assumption.
  destruct l as [|y l]; [reflexivity|].
  cbn [insertBy]. unfold byKey.
  inversion Hx as [|? ? Hxy _]; subst. unfold keyLe in Hxy.
  destruct (Z.ltb_spec 0 (key x - key y)); [lia | reflexivity].
Qed.

Lemma sortBy_idempotent l : sortBy (byKey key) (sortBy (byKey key) l) = sortBy (byKey key) l.
Proof. apply sortBy_sorted_id, sortBy_sorted. Qed.

End SortFacts.

Lemma insertBy_map (A B : Type) (g : A -> B) (cmp : B -> B -> Z) x l :
  insertBy cmp (g x) (map g l)
  = map g (insertBy (fun a b => cmp (g a) (g b)) x l).
Proof.
  induction l as [|y l IH]; [reflexivity|].
  simpl. destruct (0 <? cmp (g x) (g y))%Z; [|reflexivity].
  simpl. now rewrite IH.
Qed.

Lemma sortBy_map (A B : Type) (g : A -> B) (cmp : B -> B -> Z) l :
  sortBy cmp (map g l) = map g (sortBy (fun a b => cmp (g a) (g b)) l).
Proof.
  induction l as [|x l IH]; [reflexivity|].
  simpl. fold (sortBy cmp (map g l)). rewrite IH. apply insertBy_map.
Qed.

Lemma StronglySorted_app_le (A : Type) (R : A -> A -> Prop) l1 l2 :
  StronglySorted R (l1 ++ l2) ->
  forall a b, In a l1 -> In b l2 -> R a b.
Proof.
  induction l1 as [|x l1 IH]; intros Hs a b Ha Hb; [contradiction|].
  simpl in Hs. inversion Hs as [|? ? Hl Hx]; subst.
  destruct Ha as [<-|Ha].
  - rewrite Forall_forall in Hx. apply Hx, in_or_app. now right.
  - now apply IH.
Qed.

(** ** Facts about [slice] *)

Lemma relativeIndex_length (len : Z) :
  (0 <= len)%Z -> relativeIndex len len = len.
Proof.
  intros H. unfold relativeIndex.
  destruct (Z.ltb_spec len 0); lia.
Qed.

Lemma slice_prefix (A : Type) (l : list A) (n : Z) :
  (0 <= n)%Z -> slice l 0 n = firstn (Z.to_nat n) l.
Proof.
  intros Hn. unfold slice, relativeIndex. cbn [Z.ltb Z.compare].
  destruct (Z.ltb_spec n 0) as [H|_]; [lia|].
  rewrite (Z.min_l 0) by lia. rewrite Z.sub_0_r. cbn [Z.to_nat skipn].
  destruct (Z.le_ge_cases n (Z.of_nat (length l))) as [Hle|Hge].
  - now rewrite Z.min_l by lia.
  - rewrite Z.min_r by lia. rewrite Nat2Z.id.
    rewrite firstn_all. symmetry. apply firstn_all2. lia.
Qed.

Lemma sliceFrom_skip (A : Type) (l : list A) (k : Z) :
  sliceFrom l k = skipn (Z.to_nat (relativeIndex (Z.of_nat (length l)) k)) l.
Proof.
  unfold sliceFrom, slice. cbv zeta.
  rewrite relativeIndex_length by lia.
  apply firstn_all2. rewrite length_skipn.
  assert (0 <= relativeIndex (Z.of_nat (length l)) k)%Z.
  { unfold relativeIndex. destruct (Z.ltb_spec k 0); lia. }
  lia.
Qed.

Lemma sliceFrom_suffix (A : Type) (l : list A) (n : nat) :
  (0 < n)%nat -> sliceFrom l (- Z.of_nat n) = lastElements n l.
Proof.
  intros Hn. rewrite sliceFrom_skip. unfold lastElements, relativeIndex.
  destruct (Z.ltb_spec (- Z.of_nat n) 0) as [_|H]; [|lia].
  f_equal. lia.
Qed.

Lemma sliceFrom_zero (A : Type) (l : list A) : sliceFrom l 0 = l.
Proof.
  rewrite sliceFrom_skip. unfold relativeIndex. cbn [Z.ltb Z.compare].
  now rewrite (Z.min_l 0) by lia.
Qed.

(** ** MessageFilter *)

Section FilterFacts.

Variable unicodeLower : jsstring -> jsstring.

Lemma keepMessage_false msg :
  keepMessage unicodeLower msg = false <-> Dropped unicodeLower (content msg).
Proof.
  unfold keepMessage, Dropped.
  rewrite !andb_false_iff, !negb_false_iff.
  rewrite jsstring_eqb_eq, !includes_spec, existsb_nonAscii.
  tauto.
Qed.

Lemma Dropped_dec c : Dropped unicodeLower c \/ ~ Dropped unicodeLower c.
Proof.
  pose (msg := {| sender_name := []; content := c; timestamp_ms := None |}).
  destruct (keepMessage unicodeLower msg) eqn:E.
  - right. intros H. apply (keepMessage_false msg) in H. congruence.
  - left. now apply (keepMessage_false msg).
Qed.

(** C1.  A single message is removed by [filterMessages] exactly when its
    trimmed content is empty, or its lower-case form contains "liked a
    message", "attachment" or "like", or it holds a code unit outside
    7-bit ASCII; otherwise the result is the one message, with its content
    trimmed. *)
Theorem filterMessages_singleton (m : Message) :
  let c := trim (content m) in
  (filterMessages unicodeLower [m] = [] <-> Dropped unicodeLower c)
  /\ (Dropped unicodeLower c
      \/ (filterMessages unicodeLower [m] = [withContent m c]
          /\ length (filterMessages unicodeLower [m]) = 1%nat)).
Proof.
  intros c. unfold filterMessages. cbn [map filter]. fold c.
  pose proof (keepMessage_false (withContent m c)) as Hk. cbn [withContent content] in Hk.
  destruct (keepMessage unicodeLower (withContent m c)) eqn:E.
  - split.
    + split; [discriminate|]. intros Hd. apply Hk in Hd. discriminate.
    + right. split; reflexivity.
  - split.
    + split; [intros _; now apply Hk | reflexivity].
    + left. now apply Hk.
Qed.

End FilterFacts.

(** ** TemporalSelector *)

Lemma getSortedMessagesAscending_perm messages :
  Permutation (getSortedMessagesAscending messages)
    (filter (fun msg => truthyNumber (timestamp_ms msg)) messages).
Proof. apply sortBy_perm. Qed.

Lemma getSortedMessagesAscending_sorted messages :
  StronglySorted (keyLe timestampOf) (getSortedMessagesAscending messages).
Proof. apply (sortBy_sorted timestampOf). Qed.

Lemma getSortedMessagesAscending_stable messages (t : Z) :
  filter (fun msg => timestampOf msg =? t)%Z (getSortedMessagesAscending messages)
  = filter (fun msg => timestampOf msg =? t)%Z
      (filter (fun msg => truthyNumber (timestamp_ms msg)) messages).
Proof. apply (sortBy_stable timestampOf). Qed.

Lemma getSortedMessagesAscending_length messages :
  length (getSortedMessagesAscending messages)
  = length (filter (fun msg => truthyNumber (timestamp_ms msg)) messages).
Proof. apply sortBy_length. Qed.

(** For a positive count the two selectors are the suffix and the prefix of
    the sorted sequence, both in ascending order. *)
Lemma getLatestMessages_positive messages (n : nat) :
  (0 < n)%nat ->
  getLatestMessages messages (Z.of_nat n)
  = lastElements n (getSortedMessagesAscending messages).
Proof. intros Hn. unfold getLatestMessages. now apply sliceFrom_suffix. Qed.

Lemma getEarliestMessages_prefix messages (n : nat) :
  getEarliestMessages messages (Z.of_nat n)
  = firstn n (getSortedMessagesAscending messages).
Proof.
  unfold getEarliestMessages. cbv zeta.
  rewrite slice_prefix by lia. now rewrite Nat2Z.id.
Qed.

Lemma getLatestMessages_length messages (n : nat) :
  (0 < n)%nat ->
  length (getLatestMessages messages (Z.of_nat n))
  = Nat.min n (length (getSortedMessagesAscending messages)).
Proof.
  intros Hn. rewrite getLatestMessages_positive by assumption.
  unfold lastElements. rewrite length_skipn. lia.
Qed.

Lemma getEarliestMessages_length messages (n : nat) :
  length (getEarliestMessages messages (Z.of_nat n))
  = Nat.min n (length (getSortedMessagesAscending messages)).
Proof. rewrite getEarliestMessages_prefix. apply length_firstn. Qed.

Lemma filter_all (A : Type) (p : A -> bool) l :
  Forall (fun x => p x = true) l -> filter p l = l.
Proof.
  induction 1 as [|x l Hx Hl IH]; [reflexivity|].
  cbn [filter]. now rewrite Hx, IH.
Qed.

(** Sorting twice is sorting once. *)
Lemma getSortedMessagesAscending_idempotent messages :
  getSortedMessagesAscending (getSortedMessagesAscending messages)
  = getSortedMessagesAscending messages.
Proof.
  unfold getSortedMessagesAscending at 1.
  rewrite filter_all.
  - apply (sortBy_sorted_id (key := timestampOf)), getSortedMessagesAscending_sorted.
  - eapply Permutation_Forall.
    + apply Permutation_sym, getSortedMessagesAscending_perm.
    + rewrite Forall_forall. intros m Hm. now apply filter_In in Hm.
Qed.

(** C2.  A message whose [timestamp_ms] is present and equal to 0 is
    dropped by [getSortedMessagesAscending]: the filter tests the field for
    truthiness, not for presence. *)
Theorem getSortedMessagesAscending_drops_zero :
  let m := {| sender_name := lit "You"; content := lit "hi"; timestamp_ms := Some 0%Z |} in
  timestamp_ms m = Some 0%Z /\ getSortedMessagesAscending [m] = [].
Proof. split; reflexivity. Qed.

(** C3.  With count 0 [getLatestMessages] returns every timestamped
    message instead of none: [slice(-0)] is [slice(0)]. *)
Theorem getLatestMessages_zero_exceeds_count :
  let m := {| sender_name := lit "You"; content := lit "hi"; timestamp_ms := Some 1000%Z |} in
  length (getLatestMessages [m] (Z.of_nat 0)) = 1%nat
  /\ length (getEarliestMessages [m] (Z.of_nat 0)) = 0%nat.
Proof. split; reflexivity. Qed.

(** C4.  With count 0 [getLatestMessages] returns the whole sorted
    sequence, which is not its last 0 elements. *)
Theorem getLatestMessages_zero_is_whole_sequence :
  let a := {| sender_name := lit "You"; content := lit "late"; timestamp_ms := Some 2000%Z |} in
  let b := {| sender_name := lit "Bob"; content := lit "early"; timestamp_ms := Some 1000%Z |} in
  getLatestMessages [a; b] (Z.of_nat 0) = [b; a]
  /\ lastElements 0 (getSortedMessagesAscending [a; b]) = [].
Proof. split; reflexivity. Qed.

(** ** TextNormalizer: the escape-sequence pass *)

Lemma uriTokens_no_percent s :
  ~ In 37%N s -> uriTokens s = Some (map Literal s).
Proof.
  induction s as [|c r IH]; intros H; [reflexivity|].
  cbn [uriTokens map]. destruct (N.eqb_spec c 37) as [->|_].
  - exfalso. apply H. now left.
  - rewrite IH; [reflexivity|]. intros Hr. apply H. now right.
Qed.

Lemma decodeSymbols_literals s :
  decodeSymbols tokenOctet tokenLiteral (map Literal s) = Some s.
Proof.
  induction s as [|c r IH]; [reflexivity|].
  cbn [map decodeSymbols tokenOctet tokenLiteral]. now rewrite IH.
Qed.

Lemma decodeURIComponent_no_percent s :
  ~ In 37%N s -> decodeURIComponent s = Some s.
Proof.
  intros H. unfold decodeURIComponent.
  rewrite uriTokens_no_percent by assumption. apply decodeSymbols_literals.
Qed.

(** A percent sign followed by the letter u opens no escape:
    [decodeURIComponent] throws on every string that holds the pair. *)
Lemma uriTokens_percent_u_bounded (n : nat) :
  forall s, (length s <= n)%nat -> Contains s [37; 117]%N -> uriTokens s = None.
Proof.
  induction n as [|n IH]; intros s Hlen [pre [post H]].
  - destruct s; [destruct pre; discriminate | simpl in Hlen; lia].
  - destruct s as [|c r]; [destruct pre; discriminate|].
    cbn [uriTokens]. destruct (N.eqb_spec c 37) as [->|Hc].
    + destruct r as [|h1 [|h2 r']]; try reflexivity.
      destruct (hexValue h1) eqn:E1; [|reflexivity].
      destruct (hexValue h2) eqn:E2; [|reflexivity].
      rewrite (IH r'); [reflexivity | simpl in Hlen; lia |].
      destruct pre as [|p0 [|p1 [|p2 pre']]]; simpl in H;
        injection H; intros; subst.
      * vm_compute in E1. discriminate.
      * vm_compute in E1. discriminate.
      * vm_compute in E2. discriminate.
      * now exists pre', post.
    + destruct pre as [|p0 pre']; simpl in H; injection H; intros; subst.
      * congruence.
      * rewrite (IH (pre' ++ 37%N :: 117%N :: post));
          [reflexivity | simpl in Hlen; lia | now exists pre', post].
Qed.

Lemma decodeURIComponent_percent_u s :
  Contains s [37; 117]%N -> decodeURIComponent s = None.
Proof.
  intros H. unfold decodeURIComponent.
  now rewrite (uriTokens_percent_u_bounded (n := length s)).
Qed.

(** Either no escape is found and the text is handed on as it is, or one
    is, and the rewritten text holds a percent sign followed by u. *)
Lemma replaceEscapes_cases s :
  if hasEscape s
  then Contains (replaceEscapes s) [37; 117]%N
  else replaceEscapes s = s.
Proof.
  induction s as [|c r IH]; [reflexivity|].
  cbn [hasEscape replaceEscapes].
  assert (Hrest :
    if hasEscape r
    then Contains (c :: replaceEscapes r) [37; 117]%N
    else c :: replaceEscapes r = c :: r).
  { destruct (hasEscape r).
    - destruct IH as [pre [post H]]. exists (c :: pre), post. simpl. now rewrite H.
    - now rewrite IH. }
  destruct r as [|u [|h1 [|h2 [|h3 [|h4 r']]]]]; try exact Hrest.
  destruct (((c =? 92) && (u =? 117))%N
            && isHexDigit h1 && isHexDigit h2 && isHexDigit h3 && isHexDigit h4).
  - cbn [orb]. now exists [], (h1 :: h2 :: h3 :: h4 :: replaceEscapes r').
  - exact Hrest.
Qed.

(** The replacement is never undone: a text in which the expression
    matches comes back as it went in. *)
Lemma decodeUnicode_keeps_escapes s :
  hasEscape s = true -> decodeUnicode s = s.
Proof.
  intros H. pose proof (replaceEscapes_cases s) as Hc. rewrite H in Hc.
  unfold decodeUnicode. now rewrite decodeURIComponent_percent_u.
Qed.

Lemma decodeUnicode_no_percent s :
  ~ In 37%N s -> decodeUnicode s = s.
Proof.
  intros H. destruct (hasEscape s) eqn:E.
  - now apply decodeUnicode_keeps_escapes.
  - pose proof (replaceEscapes_cases s) as Hc. rewrite E in Hc.
    unfold decodeUnicode. rewrite Hc.
    now rewrite decodeURIComponent_no_percent.
Qed.

(** C9.  On the six characters backslash (code unit 92), u, 0, 0, 4, 1
    the expression
    matches and the text is rewritten to [%u0041], which
    [decodeURIComponent] rejects; [decodeUnicode] returns its argument, not
    the letter A the escape stands for. *)
Theorem decodeUnicode_leaves_escape :
  let s := 92%N :: lit "u0041" in
  hasEscape s = true
  /\ replaceEscapes s = lit "%u0041"
  /\ decodeURIComponent (lit "%u0041") = None
  /\ decodeUnicode s = s
  /\ decodeUnicode s <> lit "A".
Proof.
  repeat split; try reflexivity. vm_compute. discriminate.
Qed.

(** C10 as stated fails: [%2541] decodes to [%41], which decodes to [A];
    and [%41], which holds no escape sequence, is not left alone. *)
Lemma decodeUnicode_not_idempotent :
  let s := lit "%2541" in
  decodeUnicode s = lit "%41"
  /\ decodeUnicode (decodeUnicode s) = lit "A"
  /\ decodeUnicode (decodeUnicode s) <> decodeUnicode s
  /\ hasEscape (lit "%41") = false
  /\ decodeUnicode (lit "%41") <> lit "%41".
Proof.
  repeat split; try reflexivity; vm_compute; discriminate.
Qed.

(** A text in which the expression matches nowhere and which holds no
    percent sign goes through [replace] and [decodeURIComponent]
    untouched. *)
Lemma decodeUnicode_plain s :
  hasEscape s = false -> ~ In 37%N s -> decodeUnicode s = s.
Proof.
  intros He Hp. pose proof (replaceEscapes_cases s) as Hc. rewrite He in Hc.
  unfold decodeUnicode. rewrite Hc.
  now rewrite decodeURIComponent_no_percent.
Qed.

(** C10, amended.  A text that holds no escape sequence and no percent
    sign is left as it is; and decoding twice is decoding once whenever
    the first result holds no escape sequence and no percent sign. *)
Theorem decodeUnicode_idempotent_plain_text (s : jsstring) :
  (hasEscape s = false -> ~ In 37%N s -> decodeUnicode s = s)
  /\ (hasEscape (decodeUnicode s) = false -> ~ In 37%N (decodeUnicode s) ->
      decodeUnicode (decodeUnicode s) = decodeUnicode s).
Proof.
  split; intros He Hp; now apply decodeUnicode_plain.
Qed.

Lemma decodeUnicode_idempotent_plain_text_witness :
  decodeUnicode (lit "hello A") = lit "hello A"
  /\ decodeUnicode (lit "%41") = lit "A"
  /\ decodeUnicode (decodeUnicode (lit "%41")) = decodeUnicode (lit "%41").
Proof.
  split; [|split].
  - apply (decodeUnicode_idempotent_plain_text (lit "hello A")).
    + reflexivity.
    + vm_compute. intuition discriminate.
  - reflexivity.
  - apply (decodeUnicode_idempotent_plain_text (lit "%41")).
    + reflexivity.
    + vm_compute. intuition discriminate.
Defined.

(** ** IngestOrchestrator *)

(** A record one of whose texts does not decode leaves the mapping as it
    was and logs the failure. *)
Lemma forEachStep_undecodable (userMessages : UserMessages) (r : RawMessage) :
  utf8decode (orEmpty (raw_content r)) = None
  \/ utf8decode (orEmpty (raw_sender_name r)) = None ->
  forEachStep userMessages r = (userMessages, [ErrorDecodingMessage]).
Proof.
  intros H. unfold forEachStep, incorporate. cbv zeta.
  destruct H as [H|H].
  - now rewrite H.
  - rewrite H. now destruct (utf8decode (orEmpty (raw_content r))).
Qed.

Lemma forEachMessage_skip (pre post : list (option RawMessage)) (r : RawMessage)
    (userMessages : UserMessages) :
  (forall um, fst (forEachStep um r) = um) ->
  fst (forEachMessage (pre ++ Some r :: post) userMessages)
  = fst (forEachMessage (pre ++ post) userMessages).
Proof.
  intros Hr. revert userMessages.
  induction pre as [|[m|] pre IH]; intros userMessages; cbn [app forEachMessage].
  - specialize (Hr userMessages).
    destruct (forEachStep userMessages r) as [um' logged]. cbn [fst] in Hr. subst um'.
    now destruct (forEachMessage post userMessages).
  - destruct (forEachStep userMessages m) as [um' logged].
    specialize (IH um').
    destruct (forEachMessage (pre ++ Some r :: post) um').
    destruct (forEachMessage (pre ++ post) um').
    exact IH.
  - reflexivity.
Qed.

Lemma onload_data (st : AppState) (messages : list (option RawMessage)) :
  data (onload st (MessageArray messages))
  = match fst (forEachMessage messages []) with
    | Some userMessages => Some userMessages
    | None => data st
    end.
Proof.
  unfold onload. now destruct (forEachMessage messages []) as [[um|] logged].
Qed.

(** C7.  When the text is not JSON, or the document has no array of
    messages, the failure is logged and the state keeps its data.  More
    generally the handler either completes the loop and installs the whole
    mapping it built, or logs a parse error and keeps the data it had. *)
Theorem failed_ingestion_keeps_state (st : AppState) :
  onload st SyntaxError
  = {| data := data st; console := console st ++ [ErrorParsingJSON] |}
  /\ onload st NoMessageArray
     = {| data := data st; console := console st ++ [ErrorParsingJSON] |}
  /\ forall parsed,
       (exists messages userMessages logged,
           parsed = MessageArray messages
           /\ forEachMessage messages [] = (Some userMessages, logged)
           /\ onload st parsed
              = {| data := Some userMessages; console := console st ++ logged |})
       \/ (data (onload st parsed) = data st
           /\ exists logged,
                console (onload st parsed)
                = console st ++ logged ++ [ErrorParsingJSON]).
Proof.
  split; [reflexivity|]. split; [reflexivity|].
  intros [| |messages].
  - right. split; [reflexivity|]. now exists [].
  - right. split; [reflexivity|]. now exists [].
  - cbn [onload]. destruct (forEachMessage messages []) as [[um|] logged] eqn:E.
    + left. now exists messages, um, logged.
    + right. split; [reflexivity|]. now exists logged.
Qed.

(** C8 as stated fails: a record whose content is the single code unit
    233, which is no UTF-8, is logged and left out; the mapping does not
    hold it under its original text. *)
Lemma undecodable_record_not_incorporated :
  let r := {| raw_sender_name := Some (lit "Bob");
              raw_content := Some [233%N];
              raw_timestamp_ms := Some 1000%Z |} in
  let st := {| data := None; console := [] |} in
  utf8decode [233%N] = None
  /\ onload st (MessageArray [Some r])
     = {| data := Some []; console := [ErrorDecodingMessage] |}
  /\ data (onload st (MessageArray [Some r]))
     <> Some [(lit "Bob",
               [{| sender_name := lit "Bob";
                   content := [233%N];
                   timestamp_ms := Some 1000%Z |}])].
Proof.
  repeat split; try reflexivity. vm_compute. discriminate.
Qed.

(** C8, amended.  A record whose content or sender name does not decode
    is logged and left out of the mapping, and the records before and
    after it are processed as if it were not there. *)
Theorem undecodable_record_is_skipped (st : AppState)
    (pre post : list (option RawMessage)) (r : RawMessage) :
  utf8decode (orEmpty (raw_content r)) = None
  \/ utf8decode (orEmpty (raw_sender_name r)) = None ->
  (forall userMessages,
      forEachStep userMessages r = (userMessages, [ErrorDecodingMessage]))
  /\ data (onload st (MessageArray (pre ++ Some r :: post)))
     = data (onload st (MessageArray (pre ++ post))).
Proof.
  intros H. split.
  - intros um. now apply forEachStep_undecodable.
  - rewrite !onload_data. rewrite forEachMessage_skip; [reflexivity|].
    intros um. now rewrite forEachStep_undecodable.
Qed.

Lemma undecodable_record_is_skipped_witness :
  let you := {| raw_sender_name := Some (lit "You");
                raw_content := Some (lit "hi");
                raw_timestamp_ms := Some 1000%Z |} in
  let bad := {| raw_sender_name := Some (lit "Bob");
                raw_content := Some [233%N];
                raw_timestamp_ms := Some 2000%Z |} in
  let st := {| data := None; console := [] |} in
  data (onload st (MessageArray ([Some you] ++ Some bad :: [Some you])))
  = data (onload st (MessageArray ([Some you] ++ [Some you]))).
Proof.
  intros you bad st.
  apply (undecodable_record_is_skipped st [Some you] [Some you] bad).
  left. reflexivity.
Defined.

(** ** Facts about objects and tables *)

Lemma jsstring_eqb_refl k : jsstring_eqb k k = true.
Proof. now apply jsstring_eqb_eq. Qed.

Lemma jsstring_eqb_neq a b : a <> b -> jsstring_eqb a b = false.
Proof.
  intros H. destruct (jsstring_eqb a b) eqn:E; [|reflexivity].
  apply jsstring_eqb_eq in E. contradiction.
Qed.

Lemma filter_map_comm (A B : Type) (g : A -> B) (p : B -> bool) l :
  filter p (map g l) = map g (filter (fun x => p (g x)) l).
Proof.
  induction l as [|x l IH]; [reflexivity|].
  simpl. destruct (p (g x)); simpl; now rewrite IH.
Qed.

Lemma distinct_In k l : In k (distinct l) <-> In k l.
Proof.
  induction l as [|a l IH]; [reflexivity|].
  cbn [distinct]. simpl. rewrite filter_In, IH, negb_true_iff.
  split.
  - intros [H|[H _]]; auto.
  - intros [H|H]; auto.
    destruct (list_eq_dec N.eq_dec a k) as [E|E]; auto.
    right. split; [assumption|]. apply jsstring_eqb_neq. congruence.
Qed.

Lemma distinct_NoDup l : NoDup (distinct l).
Proof.
  induction l as [|a l IH]; cbn [distinct]; constructor.
  - rewrite filter_In, jsstring_eqb_refl. intros [_ H]. discriminate.
  - now apply NoDup_filter.
Qed.

Lemma distinct_snoc l k :
  distinct (l ++ [k]) = if jsstring_in_dec k l then distinct l else distinct l ++ [k].
Proof.
  induction l as [|a l IH]; [reflexivity|].
  cbn [app distinct]. rewrite IH.
  destruct (jsstring_in_dec k l) as [Hin|Hnin];
    destruct (jsstring_in_dec k (a :: l)) as [Hin'|Hnin']; try reflexivity.
  - exfalso. apply Hnin'. now right.
  - assert (a = k) as -> by (destruct Hin' as [E|E]; [assumption | contradiction]).
    rewrite filter_app. cbn [filter]. rewrite jsstring_eqb_refl. cbn [negb].
    now rewrite app_nil_r.
  - rewrite filter_app. cbn [filter].
    rewrite jsstring_eqb_neq; [reflexivity|].
    intros ->. apply Hnin'. now left.
Qed.

Lemma occurrences_snoc k' l k :
  occurrences k' (l ++ [k])
  = (occurrences k' l + if jsstring_eqb k' k then 1 else 0)%nat.
Proof.
  unfold occurrences. rewrite filter_app, length_app. cbn [filter].
  now destruct (jsstring_eqb k' k).
Qed.

Lemma occurrences_notin k l : ~ In k l -> occurrences k l = 0%nat.
Proof.
  unfold occurrences. induction l as [|a l IH]; intros H; [reflexivity|].
  cbn [filter]. rewrite jsstring_eqb_neq.
  - apply IH. intros Hl. apply H. now right.
  - intros ->. apply H. now left.
Qed.

Section TableFacts.

Variable V : Type.

Implicit Types (f g : jsstring -> V) (ks : list jsstring).

Lemma tableOf_ext f g ks :
  (forall k, In k ks -> f k = g k) -> tableOf f ks = tableOf g ks.
Proof.
  intros H. apply map_ext_in. intros k Hk. now rewrite H.
Qed.

Lemma tableOf_keys f ks : map fst (tableOf f ks) = ks.
Proof.
  unfold tableOf. rewrite map_map. cbn [fst]. apply map_id.
Qed.

Lemma ownGet_tableOf f ks k :
  ownGet (tableOf f ks) k = if jsstring_in_dec k ks then Some (f k) else None.
Proof.
  induction ks as [|k0 ks IH].
  - reflexivity.
  - cbn [tableOf map ownGet]. fold (tableOf f ks). rewrite IH.
    destruct (jsstring_eqb k0 k) eqn:E.
    + apply jsstring_eqb_eq in E. subst k0.
      destruct (jsstring_in_dec k (k :: ks)) as [_|H]; [reflexivity|].
      exfalso. apply H. now left.
    + assert (k0 <> k) by (intros ->; rewrite jsstring_eqb_refl in E; discriminate).
      destruct (jsstring_in_dec k ks) as [Hin|Hnin];
        destruct (jsstring_in_dec k (k0 :: ks)) as [Hin'|Hnin']; try reflexivity.
      * exfalso. apply Hnin'. now right.
      * exfalso. destruct Hin'; contradiction.
Qed.

Lemma ownSet_tableOf_in f ks k v :
  NoDup ks -> In k ks ->
  ownSet (tableOf f ks) k v
  = tableOf (fun k' => if jsstring_eqb k' k then v else f k') ks.
Proof.
  induction ks as [|k0 ks IH]; intros Hnd Hin; [contradiction|].
  inversion Hnd as [|? ? Hk0 Hnd']; subst.
  cbn [tableOf map ownSet]. fold (tableOf f ks).
  destruct (jsstring_eqb k0 k) eqn:E.
  - apply jsstring_eqb_eq in E. subst k0. f_equal.
    apply map_ext_in. intros k' Hk'.
    rewrite jsstring_eqb_neq; [reflexivity|]. intros ->. contradiction.
  - f_equal. apply IH; [assumption|].
    destruct Hin as [->|Hin]; [|assumption].
    rewrite jsstring_eqb_refl in E. discriminate.
Qed.

Lemma ownSet_tableOf_notin f ks k v :
  ~ In k ks -> ownSet (tableOf f ks) k v = tableOf f ks ++ [(k, v)].
Proof.
  induction ks as [|k0 ks IH]; intros Hnin; [reflexivity|].
  cbn [tableOf map ownSet app]. fold (tableOf f ks).
  rewrite jsstring_eqb_neq by (intros ->; apply Hnin; now left).
  f_equal. apply IH. intros H. apply Hnin. now right.
Qed.

Lemma entries_tableOf f ks :
  entries (tableOf f ks) = tableOf f (enumerationOrder ks).
Proof.
  unfold entries, enumerationOrder, tableOf.
  rewrite map_app, !filter_map_comm, sortBy_map.
  reflexivity.
Qed.

End TableFacts.

Lemma enumerationOrder_perm ks : Permutation (enumerationOrder ks) ks.
Proof.
  unfold enumerationOrder.
  eapply perm_trans.
  - apply Permutation_app_tail. apply sortBy_perm.
  - induction ks as [|k ks IH]; [apply perm_nil|].
    cbn [filter]. destruct (isIndexKey k); cbn [negb app].
    + now apply perm_skip.
    + apply Permutation_sym. eapply perm_trans.
      * apply perm_skip. apply Permutation_sym. exact IH.
      * apply Permutation_middle.
Qed.

Lemma enumerationOrder_In ks k : In k (enumerationOrder ks) <-> In k ks.
Proof.
  split; apply Permutation_in;
    [apply enumerationOrder_perm | apply Permutation_sym, enumerationOrder_perm].
Qed.

(** ** Facts about [ranking]

    The table is sorted by a stable sort on the negated count: the rows
    come in descending order of count, rows of equal count keep the order
    of the keys, and the seven rows kept are above all the rows cut. *)

Lemma StronglySorted_weaken (A : Type) (R S : A -> A -> Prop) l :
  (forall a b, R a b -> S a b) -> StronglySorted R l -> StronglySorted S l.
Proof.
  intros H. induction 1 as [|a l Hs IH Ha]; constructor; [assumption|].
  eapply Forall_impl; [|exact Ha]. intros b. apply H.
Qed.

Lemma StronglySorted_prefix (A : Type) (R : A -> A -> Prop) l1 l2 :
  StronglySorted R (l1 ++ l2) -> StronglySorted R l1.
Proof.
  induction l1 as [|a l1 IH]; intros H; [constructor|].
  simpl in H. inversion H as [|? ? Hs Ha]; subst.
  constructor; [now apply IH|].
  rewrite Forall_forall in Ha |- *. intros b Hb. apply Ha, in_or_app. now left.
Qed.

Section RankingFacts.

Variable count : jsstring -> nat.
Variable ks : list jsstring.

Lemma rankingAll_by_key :
  rankingAll count ks
  = sortBy (byKey (fun a : jsstring * nat => - Z.of_nat (snd a))%Z) (tableOf count ks).
Proof.
  unfold rankingAll. apply sortBy_ext. intros a b _ _. unfold byKey. lia.
Qed.

Lemma rankingAll_perm : Permutation (rankingAll count ks) (tableOf count ks).
Proof. apply sortBy_perm. Qed.

Lemma rankingAll_sorted : StronglySorted descending (rankingAll count ks).
Proof.
  rewrite rankingAll_by_key.
  eapply StronglySorted_weaken; [|apply sortBy_sorted].
  intros a b. unfold keyLe, descending. lia.
Qed.

(** Rows of the same count stand in the order of their keys in [ks]. *)
Lemma rankingAll_stable (c : nat) :
  filter (fun a => snd a =? c)%nat (rankingAll count ks)
  = filter (fun a => snd a =? c)%nat (tableOf count ks).
Proof.
  rewrite rankingAll_by_key.
  assert (E : forall l : list (jsstring * nat),
             filter (fun a => snd a =? c)%nat l
             = filter (fun a => - Z.of_nat (snd a) =? - Z.of_nat c)%Z l).
  { intros l. apply filter_ext. intros a.
    destruct (Nat.eqb_spec (snd a) c),
             (Z.eqb_spec (- Z.of_nat (snd a)) (- Z.of_nat c));
      try reflexivity; lia. }
  rewrite !E.
  apply (sortBy_stable (fun a : jsstring * nat => - Z.of_nat (snd a))%Z).
Qed.

Lemma rankingAll_In k n :
  In (k, n) (rankingAll count ks) <-> In k ks /\ n = count k.
Proof.
  unfold rankingAll. rewrite sortBy_In. unfold tableOf. rewrite in_map_iff.
  split.
  - intros [k' [E H]]. injection E as -> <-. now split.
  - intros [H ->]. now exists k.
Qed.

Lemma ranking_split :
  rankingAll count ks = ranking count ks ++ skipn 7 (rankingAll count ks).
Proof. unfold ranking. symmetry. apply firstn_skipn. Qed.

Lemma ranking_length : length (ranking count ks) = Nat.min 7 (length ks).
Proof.
  unfold ranking. rewrite length_firstn. unfold rankingAll.
  rewrite sortBy_length. unfold tableOf. now rewrite length_map.
Qed.

Lemma ranking_In k n :
  In (k, n) (ranking count ks) -> In k ks /\ n = count k.
Proof.
  intros H. apply rankingAll_In. rewrite ranking_split. apply in_or_app. now left.
Qed.

Lemma ranking_sorted : StronglySorted descending (ranking count ks).
Proof.
  apply StronglySorted_prefix with (l2 := skipn 7 (rankingAll count ks)).
  rewrite <- ranking_split. apply rankingAll_sorted.
Qed.

(** A key that is not among the labels has no more than any row shown. *)
Lemma ranking_dominates k :
  In k ks -> ~ In k (map fst (ranking count ks)) ->
  forall row, In row (ranking count ks) -> (count k <= snd row)%nat.
Proof.
  intros Hk Hout row Hrow.
  assert (Hall : In (k, count k) (rankingAll count ks)) by now apply rankingAll_In.
  rewrite ranking_split in Hall. apply in_app_or in Hall.
  destruct Hall as [Hin|Hcut].
  - exfalso. apply Hout. apply in_map_iff. now exists (k, count k).
  - pose proof rankingAll_sorted as Hs. rewrite ranking_split in Hs.
    apply (StronglySorted_app_le _ _ Hs row (k, count k) Hrow Hcut).
Qed.

(** Up to seven keys, every one of them is shown. *)
Lemma ranking_complete k :
  (length ks <= 7)%nat -> In k ks -> In (k, count k) (ranking count ks).
Proof.
  intros Hlen Hk. unfold ranking. rewrite firstn_all2.
  - now apply rankingAll_In.
  - unfold rankingAll. rewrite sortBy_length. unfold tableOf.
    now rewrite length_map.
Qed.

Lemma ranking_NoDup : NoDup ks -> NoDup (map fst (ranking count ks)).
Proof.
  intros Hnd.
  assert (H : NoDup (map fst (rankingAll count ks))).
  { eapply Permutation_NoDup; [|exact Hnd].
    apply Permutation_sym. rewrite <- (tableOf_keys count ks) at 2.
    apply Permutation_map, rankingAll_perm. }
  rewrite ranking_split, map_app in H. now apply NoDup_app_remove_r in H.
Qed.

End RankingFacts.

(** ** Aggregator: content frequency *)

Lemma inherited_proto k :
  jsstring_eqb k (lit "__proto__") = true -> inherited k = true.
Proof.
  intros H. apply jsstring_eqb_eq in H. subst k. reflexivity.
Qed.

Lemma fold_left_map (A B C : Type) (f : A -> C -> A) (g : B -> C) l a :
  fold_left (fun acc x => f acc (g x)) l a = fold_left f (map g l) a.
Proof.
  revert a. induction l as [|x l IH]; intros a; [reflexivity|]. simpl. apply IH.
Qed.

(** One more text counted, as long as it names no inherited member: the
    object is the table of the counts so far, in order of first
    occurrence. *)
Lemma tallyMessage_tableOf (p : list jsstring) (k : jsstring) :
  inherited k = false ->
  tallyMessage (tableOf (fun k' => Count (occurrences k' p)) (distinct p)) k
  = tableOf (fun k' => Count (occurrences k' (p ++ [k]))) (distinct (p ++ [k])).
Proof.
  intros Hk. unfold tallyMessage. rewrite ownGet_tableOf, distinct_snoc.
  destruct (jsstring_in_dec k (distinct p)) as [Hin|Hnin];
    destruct (jsstring_in_dec k p) as [Hp|Hp];
    try (exfalso; rewrite distinct_In in *; contradiction).
  - rewrite ownSet_tableOf_in by (apply distinct_NoDup || assumption).
    apply tableOf_ext. intros k' _. rewrite occurrences_snoc.
    destruct (jsstring_eqb k' k) eqn:E.
    + apply jsstring_eqb_eq in E. now subst k'.
    + f_equal. lia.
  - destruct (jsstring_eqb k (lit "__proto__")) eqn:E.
    { apply inherited_proto in E. congruence. }
    rewrite Hk. rewrite ownSet_tableOf_notin by assumption.
    unfold tableOf. rewrite map_app. cbn [map]. f_equal.
    + apply map_ext_in. intros k' Hk'. rewrite occurrences_snoc.
      rewrite jsstring_eqb_neq; [f_equal; f_equal; lia|].
      intros ->. contradiction.
    + rewrite occurrences_snoc, occurrences_notin by assumption.
      now rewrite jsstring_eqb_refl.
Qed.

Lemma fold_tallyMessage (p : list jsstring) :
  (forall k, In k p -> inherited k = false) ->
  fold_left tallyMessage p []
  = tableOf (fun k => Count (occurrences k p)) (distinct p).
Proof.
  induction p as [|k p IH] using rev_ind; intros H; [reflexivity|].
  rewrite fold_left_app. cbn [fold_left].
  rewrite IH by (intros k' Hk'; apply H, in_or_app; now left).
  apply tallyMessage_tableOf. apply H, in_or_app. right. now left.
Qed.

(** C5 as stated fails: three texts seen once each, "hi", "7" and "5" in
    that order, are shown as "5", "7", "hi", whatever the host's case
    tables: an object enumerates its array-index keys first, in numeric
    order. *)
Lemma getTopMessages_ties_not_first_seen :
  let message := fun c =>
    {| sender_name := lit "You"; content := lit c; timestamp_ms := Some 1000%Z |} in
  let messages := [message "hi"; message "7"; message "5"]%string in
  (forall unicodeLower,
      getTopMessages unicodeLower messages
      = {| labels := [lit "5"; lit "7"; lit "hi"];
           datasets := [[Count 1; Count 1; Count 1]] |})
  /\ (forall unicodeLower,
         map fst (ranking (fun k => occurrences k (map content (filterMessages unicodeLower messages)))
                    (distinct (map content (filterMessages unicodeLower messages))))
         = [lit "hi"; lit "7"; lit "5"]).
Proof.
  split; intros unicodeLower; reflexivity.
Qed.

Lemma enumerationOrder_length ks : length (enumerationOrder ks) = length ks.
Proof. apply Permutation_length, enumerationOrder_perm. Qed.

Lemma getTopMessages_table (unicodeLower : jsstring -> jsstring)
    (messages : list Message) :
  let texts := map content (filterMessages unicodeLower messages) in
  let top :=
    ranking (fun k => occurrences k texts) (enumerationOrder (distinct texts)) in
  (forall k, In k texts -> inherited k = false) ->
  getTopMessages unicodeLower messages
  = {| labels := map fst top;
       datasets := [map (fun row => Count (snd row)) top] |}.
Proof.
  intros texts top H. unfold getTopMessages. cbv zeta.
  rewrite fold_left_map. fold texts. rewrite fold_tallyMessage by exact H.
  rewrite entries_tableOf.
  set (count := fun k => occurrences k texts).
  set (order := enumerationOrder (distinct texts)).
  assert (E : tableOf (fun k => Count (occurrences k texts)) order
              = map (fun row : jsstring * nat => (fst row, Count (snd row)))
                  (tableOf count order)).
  { unfold tableOf. now rewrite map_map. }
  rewrite E, sortBy_map, slice_prefix by lia.
  change (Z.to_nat 7) with 7%nat. rewrite firstn_map, !map_map.
  reflexivity.
Qed.

(** C5, amended.  When no surviving text is the name of a member of
    [Object.prototype], [getTopMessages] shows the ranking of the distinct
    trimmed texts of the messages that pass the filter, each with the
    number of its occurrences among them: at most seven rows, in
    descending order of count, every text left out having no more than
    any text shown; texts of equal count stand in the order in which the
    object enumerates them, array indices first in numeric order, then the
    others in order of first occurrence. *)
Theorem getTopMessages_ranking (unicodeLower : jsstring -> jsstring)
    (messages : list Message) :
  let texts := map content (filterMessages unicodeLower messages) in
  let count := fun k => occurrences k texts in
  let order := enumerationOrder (distinct texts) in
  let top := ranking count order in
  (forall k, In k texts -> inherited k = false) ->
  getTopMessages unicodeLower messages
  = {| labels := map fst top;
       datasets := [map (fun row => Count (snd row)) top] |}
  /\ length top = Nat.min 7 (length (distinct texts))
  /\ (forall k n, In (k, n) top -> In k texts /\ n = count k)
  /\ StronglySorted descending top
  /\ (forall k, In k texts -> ~ In k (map fst top) ->
      forall row, In row top -> (count k <= snd row)%nat)
  /\ (forall c,
         filter (fun row => snd row =? c)%nat (rankingAll count order)
         = filter (fun row => snd row =? c)%nat (tableOf count order)).
Proof.
  intros texts count order top H.
  split; [now apply getTopMessages_table|].
  split; [unfold top; rewrite ranking_length; unfold order;
          now rewrite enumerationOrder_length|].
  split.
  { intros k n Hin. apply ranking_In in Hin. destruct Hin as [Hk Hn].
    unfold order in Hk. rewrite enumerationOrder_In, distinct_In in Hk. now split. }
  split; [apply ranking_sorted|].
  split.
  { intros k Hk Hout row Hrow. apply (ranking_dominates count order); try assumption.
    unfold order. now rewrite enumerationOrder_In, distinct_In. }
  intros c. apply rankingAll_stable.
Qed.

Lemma getTopMessages_ranking_witness :
  let message := fun c =>
    {| sender_name := lit "You"; content := lit c; timestamp_ms := Some 1000%Z |} in
  let messages :=
    [message " hi "; message "7"; message "I like it"; message "hi"; message "5"]%string in
  getTopMessages (fun s => s) messages
  = {| labels := [lit "hi"; lit "5"; lit "7"];
       datasets := [[Count 2; Count 1; Count 1]] |}.
Proof.
  intros message messages.
  refine (proj1 (getTopMessages_ranking (fun s => s) messages _)).
  intros k Hk. vm_compute in Hk.
  repeat (destruct Hk as [Hk|Hk]; [subst k; reflexivity|]).
  contradiction.
Defined.

(** ** Aggregator: sender counts *)

Lemma forEachMessage_fold (messages : list RawMessage) (userMessages : UserMessages) :
  fst (forEachMessage (map Some messages) userMessages)
  = Some (fold_left (fun um r => fst (forEachStep um r)) messages userMessages).
Proof.
  revert userMessages. induction messages as [|r messages IH]; intros um.
  - reflexivity.
  - cbn [map forEachMessage fold_left].
    destruct (forEachStep um r) as [um' logged]. cbn [fst].
    specialize (IH um').
    now destruct (forEachMessage (map Some messages) um').
Qed.

(** On a mapping that has no inherited name among its keys, the callback
    appends the decoded record to its sender's messages, or leaves the
    mapping alone when the record does not come through. *)
Lemma forEachStep_decodeRecord (um : UserMessages) (r : RawMessage) :
  (forall k, inherited k = true -> ownGet um k = None) ->
  fst (forEachStep um r)
  = match decodeRecord r with
    | Some e =>
        ownSet um (sender_name e)
          (match ownGet um (sender_name e) with
           | Some msgs => msgs ++ [e]
           | None => [e]
           end)
    | None => um
    end.
Proof.
  intros H. unfold forEachStep, incorporate, decodeRecord. cbv zeta.
  destruct (utf8decode (orEmpty (raw_content r))) as [dc|]; [|reflexivity].
  destruct (utf8decode (orEmpty (raw_sender_name r))) as [ds|]; [|reflexivity].
  destruct (inherited ds) eqn:Ei.
  - now rewrite H.
  - cbn [sender_name]. now destruct (ownGet um ds).
Qed.

Lemma decodeRecord_sender (r : RawMessage) (e : Message) :
  decodeRecord r = Some e -> inherited (sender_name e) = false.
Proof.
  unfold decodeRecord.
  destruct (utf8decode (orEmpty (raw_content r))); [|discriminate].
  destruct (utf8decode (orEmpty (raw_sender_name r))) as [ds|]; [|discriminate].
  destruct (inherited ds) eqn:E; [discriminate|].
  intros H. injection H as <-. exact E.
Qed.

Lemma ingested_sender (messages : list RawMessage) (m : Message) :
  In m (ingested messages) -> inherited (sender_name m) = false.
Proof.
  unfold ingested. rewrite in_flat_map. intros [r [_ H]].
  destruct (decodeRecord r) as [e|] eqn:E; [|contradiction].
  destruct H as [<-|[]]. now apply decodeRecord_sender with r.
Qed.

Lemma ingested_snoc (messages : list RawMessage) (r : RawMessage) :
  ingested (messages ++ [r])
  = ingested messages ++ match decodeRecord r with
                         | Some e => [e]
                         | None => []
                         end.
Proof.
  unfold ingested. rewrite flat_map_app. cbn [flat_map]. now rewrite app_nil_r.
Qed.

Lemma bySender_none (kept : list Message) (s : jsstring) :
  ~ In s (map sender_name kept) -> bySender kept s = [].
Proof.
  unfold bySender. induction kept as [|m kept IH]; intros H; [reflexivity|].
  cbn [filter]. rewrite jsstring_eqb_neq.
  - apply IH. intros Hk. apply H. now right.
  - intros E. apply H. left. exact E.
Qed.

Lemma bySender_snoc (kept : list Message) (e : Message) (s : jsstring) :
  bySender (kept ++ [e]) s
  = bySender kept s ++ if jsstring_eqb (sender_name e) s then [e] else [].
Proof.
  unfold bySender. rewrite filter_app. cbn [filter].
  now destruct (jsstring_eqb (sender_name e) s).
Qed.

Lemma grouped_inherited (kept : list Message) (k : jsstring) :
  (forall m, In m kept -> inherited (sender_name m) = false) ->
  inherited k = true -> ownGet (grouped kept) k = None.
Proof.
  intros Hkept Hk. unfold grouped. rewrite ownGet_tableOf.
  destruct (jsstring_in_dec k (distinct (map sender_name kept))) as [Hin|_];
    [|reflexivity].
  rewrite distinct_In, in_map_iff in Hin. destruct Hin as [m [<- Hm]].
  rewrite Hkept in Hk by assumption. discriminate.
Qed.

Lemma grouped_snoc (kept : list Message) (e : Message) :
  ownSet (grouped kept) (sender_name e)
    (match ownGet (grouped kept) (sender_name e) with
     | Some msgs => msgs ++ [e]
     | None => [e]
     end)
  = grouped (kept ++ [e]).
Proof.
  unfold grouped. rewrite ownGet_tableOf, map_app. cbn [map].
  rewrite distinct_snoc.
  set (s := sender_name e). set (senders := map sender_name kept).
  destruct (jsstring_in_dec s (distinct senders)) as [Hin|Hnin];
    destruct (jsstring_in_dec s senders) as [Hs|Hs];
    try (exfalso; rewrite distinct_In in *; contradiction).
  - rewrite ownSet_tableOf_in by (apply distinct_NoDup || assumption).
    apply tableOf_ext. intros k' _. rewrite bySender_snoc. fold s.
    destruct (jsstring_eqb k' s) eqn:E.
    + apply jsstring_eqb_eq in E. subst k'. now rewrite jsstring_eqb_refl.
    + rewrite jsstring_eqb_neq; [now rewrite app_nil_r|].
      intros <-. rewrite jsstring_eqb_refl in E. discriminate.
  - rewrite ownSet_tableOf_notin by assumption.
    unfold tableOf. rewrite map_app. cbn [map]. f_equal.
    + apply map_ext_in. intros k' Hk'. rewrite bySender_snoc. fold s.
      rewrite jsstring_eqb_neq; [now rewrite app_nil_r|].
      intros <-. contradiction.
    + rewrite bySender_snoc, bySender_none by assumption.
      fold s. now rewrite jsstring_eqb_refl.
Qed.

(** The handler groups the records that come through by sender. *)
Lemma fold_forEachStep (messages : list RawMessage) :
  fold_left (fun um r => fst (forEachStep um r)) messages []
  = grouped (ingested messages).
Proof.
  induction messages as [|r messages IH] using rev_ind; [reflexivity|].
  rewrite fold_left_app. cbn [fold_left]. rewrite IH.
  rewrite forEachStep_decodeRecord
    by (intros k; apply grouped_inherited; apply ingested_sender).
  rewrite ingested_snoc. destruct (decodeRecord r) as [e|].
  - apply grouped_snoc.
  - now rewrite app_nil_r.
Qed.

Lemma onload_grouped (st : AppState) (messages : list RawMessage) :
  data (onload st (MessageArray (map Some messages)))
  = Some (grouped (ingested messages)).
Proof.
  rewrite onload_data, forEachMessage_fold. now rewrite fold_forEachStep.
Qed.

Lemma getChartData_grouped (kept : list Message) :
  let top :=
    ranking (fun s => length (bySender kept s))
      (enumerationOrder (distinct (map sender_name kept))) in
  getChartData (Some (grouped kept))
  = {| labels := map fst top; datasets := [map snd top] |}.
Proof.
  intros top. unfold getChartData. cbv zeta.
  assert (Hk : keys (grouped kept)
               = enumerationOrder (distinct (map sender_name kept))).
  { unfold keys, grouped. rewrite entries_tableOf. apply tableOf_keys. }
  rewrite Hk.
  assert (Hc : map (fun user => (user, messageCount (grouped kept) user))
                 (enumerationOrder (distinct (map sender_name kept)))
               = tableOf (fun s => length (bySender kept s))
                   (enumerationOrder (distinct (map sender_name kept)))).
  { apply map_ext_in. intros user Hu. unfold messageCount, grouped.
    rewrite ownGet_tableOf.
    destruct (jsstring_in_dec user (distinct (map sender_name kept))) as [_|Hn];
      [reflexivity|].
    exfalso. apply Hn. now apply enumerationOrder_In. }
  rewrite Hc, slice_prefix by lia. reflexivity.
Qed.

(** C6.  After an upload, [getChartData] shows the ranking of the senders
    by the number of their records that were taken in, none of them
    passed through [filterMessages]: at most seven rows, in descending
    order of count, every sender left out having no more than any sender
    shown, and every sender shown when there are no more than seven. *)
Theorem getChartData_counts_every_message (st : AppState)
    (messages : list RawMessage) :
  let kept := ingested messages in
  let senders := distinct (map sender_name kept) in
  let count := fun s => length (bySender kept s) in
  let top := ranking count (enumerationOrder senders) in
  getChartData (data (onload st (MessageArray (map Some messages))))
  = {| labels := map fst top; datasets := [map snd top] |}
  /\ length top = Nat.min 7 (length senders)
  /\ (forall s n, In (s, n) top -> In s (map sender_name kept) /\ n = count s)
  /\ StronglySorted descending top
  /\ (forall s, In s (map sender_name kept) -> ~ In s (map fst top) ->
      forall row, In row top -> (count s <= snd row)%nat)
  /\ ((length senders <= 7)%nat ->
      forall s, In s (map sender_name kept) -> In (s, count s) top).
Proof.
  intros kept senders count top.
  split; [rewrite onload_grouped; apply getChartData_grouped|].
  split; [unfold top; rewrite ranking_length; now rewrite enumerationOrder_length|].
  split.
  { intros s n Hin. apply ranking_In in Hin. destruct Hin as [Hs Hn].
    unfold senders in Hs. rewrite enumerationOrder_In, distinct_In in Hs. now split. }
  split; [apply ranking_sorted|].
  split.
  { intros s Hs Hout row Hrow.
    apply (ranking_dominates count (enumerationOrder senders)); try assumption.
    unfold senders. now rewrite enumerationOrder_In, distinct_In. }
  intros Hlen s Hs. apply ranking_complete.
  - now rewrite enumerationOrder_length.
  - unfold senders. now rewrite enumerationOrder_In, distinct_In.
Qed.

(** The scenario of the specification: Bob's only message is boilerplate
    that the filter removes, and Bob is counted all the same. *)
Lemma getChartData_counts_every_message_witness :
  let you := {| raw_sender_name := Some (lit "You");
                raw_content := Some (lit "hi");
                raw_timestamp_ms := Some 1000%Z |} in
  let bob := {| raw_sender_name := Some (lit "Bob");
                raw_content := Some (lit "liked a message");
                raw_timestamp_ms := Some 2000%Z |} in
  let st := {| data := None; console := [] |} in
  getChartData (data (onload st (MessageArray (map Some [you; bob]))))
  = {| labels := [lit "You"; lit "Bob"]; datasets := [[1; 1]%nat] |}
  /\ (forall unicodeLower,
         map sender_name (filterMessages unicodeLower (ingested [you; bob]))
         = [lit "You"]).
Proof.
  intros you bob st. split.
  - exact (proj1 (getChartData_counts_every_message st [you; bob])).
  - intros unicodeLower. reflexivity.
Defined.

(** ** The scenarios of the specification *)

Example sender_counts_five_three_two :
  let from := fun s =>
    {| raw_sender_name := Some (lit s);
       raw_content := Some (lit "ok");
       raw_timestamp_ms := Some 1000%Z |} in
  let messages :=
    map from ["Ann"; "Bob"; "Ann"; "Cy"; "Ann"; "Bob"; "Ann"; "Cy"; "Bob"; "Ann"]%string in
  getChartData (data (onload {| data := None; console := [] |}
                        (MessageArray (map Some messages))))
  = {| labels := [lit "Ann"; lit "Bob"; lit "Cy"];
       datasets := [[5; 3; 2]%nat] |}.
Proof. reflexivity. Qed.

Example content_frequency_hi_first :
  let message := fun c =>
    {| sender_name := lit "You"; content := lit c; timestamp_ms := Some 1000%Z |} in
  let messages :=
    map message ["yes"; "hi"; "no"; "hi"; "ok"; "hi"; "hi"]%string in
  forall unicodeLower,
    getTopMessages unicodeLower messages
    = {| labels := [lit "hi"; lit "yes"; lit "no"; lit "ok"];
         datasets := [[Count 4; Count 1; Count 1; Count 1]] |}.
Proof. intros unicodeLower. reflexivity. Qed.

(** A text that names an inherited member is not counted as a number. *)
Example content_frequency_inherited_name :
  let message := fun c =>
    {| sender_name := lit "You"; content := lit c; timestamp_ms := Some 1000%Z |} in
  forall unicodeLower,
    getTopMessages unicodeLower (map message ["toString"; "toString"]%string)
    = {| labels := [lit "toString"]; datasets := [[Junk 2]] |}.
Proof. intros unicodeLower. reflexivity. Qed.

(** A sender whose name is that of an inherited member is logged and left
    out, like a record that does not decode. *)
Example sender_with_inherited_name :
  let r := {| raw_sender_name := Some (lit "constructor");
              raw_content := Some (lit "hi");
              raw_timestamp_ms := Some 1000%Z |} in
  onload {| data := None; console := [] |} (MessageArray [Some r])
  = {| data := Some []; console := [ErrorDecodingMessage] |}.
Proof. reflexivity. Qed.

(** * Further properties of the code *)

(** ** TemporalSelector *)

Lemma truthyNumber_spec (t : option Z) :
  truthyNumber t = true <-> exists z, t = Some z /\ z <> 0%Z.
Proof.
  destruct t as [z|]; cbn [truthyNumber].
  - rewrite negb_true_iff, Z.eqb_neq. split.
    + intros H. now exists z.
    + intros [z' [E H]]. now injection E as ->.
  - split; [discriminate | intros [z [E _]]; discriminate].
Qed.

Lemma In_firstn_list (A : Type) (n : nat) (l : list A) x :
  In x (firstn n l) -> In x l.
Proof.
  intros H. rewrite <- (firstn_skipn n l). apply in_or_app. now left.
Qed.

Lemma In_skipn_list (A : Type) (n : nat) (l : list A) x :
  In x (skipn n l) -> In x l.
Proof.
  intros H. rewrite <- (firstn_skipn n l). apply in_or_app. now right.
Qed.

Lemma In_slice (A : Type) (l : list A) (a b : Z) x :
  In x (slice l a b) -> In x l.
Proof.
  unfold slice. cbv zeta. intros H.
  apply In_firstn_list in H. now apply In_skipn_list in H.
Qed.

Lemma StronglySorted_suffix (A : Type) (R : A -> A -> Prop) l1 l2 :
  StronglySorted R (l1 ++ l2) -> StronglySorted R l2.
Proof.
  induction l1 as [|a l1 IH]; intros H; [exact H|].
  simpl in H. inversion H; subst. now apply IH.
Qed.

Lemma StronglySorted_slice (A : Type) (R : A -> A -> Prop) (l : list A) (a b : Z) :
  StronglySorted R l -> StronglySorted R (slice l a b).
Proof.
  intros H. unfold slice. cbv zeta.
  set (k := Z.to_nat (relativeIndex (Z.of_nat (length l)) a)).
  set (n := Z.to_nat _).
  apply StronglySorted_prefix with (l2 := skipn n (skipn k l)).
  rewrite firstn_skipn.
  apply StronglySorted_suffix with (l1 := firstn k l).
  now rewrite firstn_skipn.
Qed.

Lemma getSortedMessagesAscending_In messages m :
  In m (getSortedMessagesAscending messages)
  <-> In m messages /\ exists t, timestamp_ms m = Some t /\ t <> 0%Z.
Proof.
  unfold getSortedMessagesAscending.
  rewrite sortBy_In, filter_In, truthyNumber_spec. reflexivity.
Qed.

(** X1.  [getSortedMessagesAscending] is a stable ascending sort of the
    messages whose timestamp is present and not 0: it returns those
    messages, each as often as it came in, in ascending order of timestamp,
    and messages of equal timestamp in the order they had. *)
Theorem getSortedMessagesAscending_stable_sort (messages : list Message) :
  let sorted := getSortedMessagesAscending messages in
  let timestamped := filter (fun msg => truthyNumber (timestamp_ms msg)) messages in
  Permutation sorted timestamped
  /\ StronglySorted (fun a b => timestampOf a <= timestampOf b)%Z sorted
  /\ (forall t, filter (fun msg => timestampOf msg =? t)%Z sorted
                = filter (fun msg => timestampOf msg =? t)%Z timestamped)
  /\ (forall m, In m sorted
                <-> In m messages /\ exists t, timestamp_ms m = Some t /\ t <> 0%Z).
Proof.
  intros sorted timestamped. split; [|split; [|split]].
  - apply getSortedMessagesAscending_perm.
  - apply getSortedMessagesAscending_sorted.
  - intros t. apply getSortedMessagesAscending_stable.
  - intros m. apply getSortedMessagesAscending_In.
Qed.

(** X2.  Sorting what [getSortedMessagesAscending] returned returns it
    again, and nothing is filtered out the second time. *)
Theorem getSortedMessagesAscending_twice (messages : list Message) :
  getSortedMessagesAscending (getSortedMessagesAscending messages)
  = getSortedMessagesAscending messages
  /\ filter (fun msg => truthyNumber (timestamp_ms msg))
       (getSortedMessagesAscending messages)
     = getSortedMessagesAscending messages.
Proof.
  split; [apply getSortedMessagesAscending_idempotent|].
  apply filter_all. rewrite Forall_forall. intros m Hm.
  apply getSortedMessagesAscending_In in Hm. now apply truthyNumber_spec.
Qed.

(** X3.  For a count of at least 1, [getLatestMessages] is the last
    [count] messages of the sorted sequence, in ascending order: all of
    them when there are no more than [count]. *)
Theorem getLatestMessages_last (messages : list Message) (n : nat) :
  (0 < n)%nat ->
  let sorted := getSortedMessagesAscending messages in
  getLatestMessages messages (Z.of_nat n) = skipn (length sorted - n) sorted
  /\ length (getLatestMessages messages (Z.of_nat n)) = Nat.min n (length sorted)
  /\ exists older, sorted = older ++ getLatestMessages messages (Z.of_nat n).
Proof.
  intros Hn sorted. split; [|split].
  - now apply getLatestMessages_positive.
  - now apply getLatestMessages_length.
  - rewrite getLatestMessages_positive by assumption.
    exists (firstn (length sorted - n) sorted). symmetry. apply firstn_skipn.
Qed.

Lemma getLatestMessages_last_witness :
  let at_ := fun t =>
    {| sender_name := lit "You"; content := lit "hi"; timestamp_ms := Some t |} in
  getLatestMessages [at_ 30; at_ 10; at_ 20]%Z (Z.of_nat 2) = [at_ 20; at_ 30]%Z.
Proof.
  intros at_.
  refine (proj1 (getLatestMessages_last [at_ 30; at_ 10; at_ 20]%Z (n := 2) _)).
  lia.
Defined.

(** X4.  For every count from 0 on, [getEarliestMessages] is the first
    [count] messages of the sorted sequence: all of them when there are no
    more than [count], none for 0. *)
Theorem getEarliestMessages_first (messages : list Message) (n : nat) :
  let sorted := getSortedMessagesAscending messages in
  getEarliestMessages messages (Z.of_nat n) = firstn n sorted
  /\ length (getEarliestMessages messages (Z.of_nat n)) = Nat.min n (length sorted)
  /\ exists newer, sorted = getEarliestMessages messages (Z.of_nat n) ++ newer.
Proof.
  intros sorted. split; [|split].
  - apply getEarliestMessages_prefix.
  - apply getEarliestMessages_length.
  - rewrite getEarliestMessages_prefix.
    exists (skipn n sorted). symmetry. apply firstn_skipn.
Qed.

(** X5.  Whatever the count, zero and negative ones included, the two
    selectors return messages of the input that carry a timestamp other
    than 0, in ascending order of timestamp. *)
Theorem selectors_return_timestamped (messages : list Message) (count : Z) :
  StronglySorted (fun a b => timestampOf a <= timestampOf b)%Z
    (getLatestMessages messages count)
  /\ StronglySorted (fun a b => timestampOf a <= timestampOf b)%Z
       (getEarliestMessages messages count)
  /\ forall m,
       In m (getLatestMessages messages count)
       \/ In m (getEarliestMessages messages count) ->
       In m messages /\ exists t, timestamp_ms m = Some t /\ t <> 0%Z.
Proof.
  split; [|split].
  - apply StronglySorted_slice, getSortedMessagesAscending_sorted.
  - apply StronglySorted_slice, getSortedMessagesAscending_sorted.
  - intros m [H|H]; apply In_slice in H;
      now apply getSortedMessagesAscending_In.
Qed.

(** X6.  When the count is at least 1 and at least the number of sorted
    messages, both selectors return the whole sorted sequence. *)
Theorem selectors_return_all (messages : list Message) (n : nat) :
  (0 < n)%nat ->
  (length (getSortedMessagesAscending messages) <= n)%nat ->
  getLatestMessages messages (Z.of_nat n) = getSortedMessagesAscending messages
  /\ getEarliestMessages messages (Z.of_nat n) = getSortedMessagesAscending messages.
Proof.
  intros Hn Hlen. split.
  - rewrite getLatestMessages_positive by assumption. unfold lastElements.
    replace (length (getSortedMessagesAscending messages) - n)%nat with 0%nat by lia.
    reflexivity.
  - rewrite getEarliestMessages_prefix. now apply firstn_all2.
Qed.

Lemma selectors_return_all_witness :
  let at_ := fun t =>
    {| sender_name := lit "You"; content := lit "hi"; timestamp_ms := Some t |} in
  getLatestMessages [at_ 30; at_ 10]%Z (Z.of_nat 6) = [at_ 10; at_ 30]%Z
  /\ getEarliestMessages [at_ 30; at_ 10]%Z (Z.of_nat 6) = [at_ 10; at_ 30]%Z.
Proof.
  intros at_.
  refine (selectors_return_all [at_ 30; at_ 10]%Z (n := 6) _ _).
  - lia.
  - vm_compute. lia.
Defined.

(** X7.  A negative count turns the selectors round: with [-k],
    [getLatestMessages] drops the first [k] messages of the sorted
    sequence and [getEarliestMessages] drops the last [k]. *)
Theorem selectors_negative_count (messages : list Message) (k : nat) :
  (0 < k)%nat ->
  let sorted := getSortedMessagesAscending messages in
  getLatestMessages messages (- Z.of_nat k) = skipn k sorted
  /\ getEarliestMessages messages (- Z.of_nat k) = firstn (length sorted - k) sorted.
Proof.
  intros Hk sorted. split.
  - unfold getLatestMessages. cbv zeta. fold sorted.
    rewrite Z.opp_involutive, sliceFrom_skip. unfold relativeIndex.
    destruct (Z.ltb_spec (Z.of_nat k) 0) as [H|_]; [lia|].
    destruct (Nat.le_gt_cases k (length sorted)) as [Hle|Hgt].
    + rewrite Z.min_l by lia. now rewrite Nat2Z.id.
    + rewrite Z.min_r by lia. rewrite Nat2Z.id.
      rewrite skipn_all. symmetry. apply skipn_all2. lia.
  - unfold getEarliestMessages, slice, relativeIndex. cbv zeta. fold sorted.
    cbn [Z.ltb Z.compare].
    destruct (Z.ltb_spec (- Z.of_nat k) 0) as [_|H]; [|lia].
    rewrite (Z.min_l 0) by lia. cbn [Z.to_nat skipn]. f_equal. lia.
Qed.

Lemma selectors_negative_count_witness :
  let at_ := fun t =>
    {| sender_name := lit "You"; content := lit "hi"; timestamp_ms := Some t |} in
  getLatestMessages [at_ 30; at_ 10; at_ 20]%Z (- Z.of_nat 1) = [at_ 20; at_ 30]%Z
  /\ getEarliestMessages [at_ 30; at_ 10; at_ 20]%Z (- Z.of_nat 1) = [at_ 10; at_ 20]%Z.
Proof.
  intros at_.
  refine (selectors_negative_count [at_ 30; at_ 10; at_ 20]%Z (k := 1) _).
  lia.
Defined.

(** ** MessageFilter *)

Lemma includes_liked_like (s : jsstring) :
  includes s (lit "liked a message") = true -> includes s (lit "like") = true.
Proof.
  rewrite !includes_spec. intros [pre [post H]].
  exists pre, (lit "d a message" ++ post). rewrite H. reflexivity.
Qed.

Lemma keepMessage_host (l1 l2 : jsstring -> jsstring) (msg : Message) :
  keepMessage l1 msg = keepMessage l2 msg.
Proof.
  unfold keepMessage, toLowerCase.
  destruct (existsb nonAscii (content msg)).
  - cbn [negb]. now rewrite !andb_false_r.
  - reflexivity.
Qed.

Lemma keepMessage_ascii (unicodeLower : jsstring -> jsstring) (msg : Message) :
  keepMessage unicodeLower msg = true ->
  toLowerCase unicodeLower (content msg) = map lowerAscii (content msg).
Proof.
  intros Hk. unfold keepMessage in Hk.
  apply andb_true_iff in Hk. destruct Hk as [_ Hascii].
  apply negb_true_iff in Hascii. unfold toLowerCase. now rewrite Hascii.
Qed.

(** X8.  What [filterMessages] returns does not depend on the case tables
    of the host: a text with a code unit outside ASCII is removed whatever
    its lower-case form, and on ASCII text lower-casing only maps A-Z to
    a-z. *)
Theorem filterMessages_host_independent (l1 l2 : jsstring -> jsstring)
    (messages : list Message) :
  filterMessages l1 messages = filterMessages l2 messages
  /\ forall m, In m (filterMessages l1 messages) ->
       toLowerCase l1 (content m) = map lowerAscii (content m).
Proof.
  split.
  - unfold filterMessages. apply filter_ext. intros msg. apply keepMessage_host.
  - intros m Hm. unfold filterMessages in Hm. apply filter_In in Hm.
    destruct Hm as [_ Hk]. now apply keepMessage_ascii.
Qed.

(** X9.  The test for "liked a message" never decides: a text that
    contains it contains "like", so the filter keeps the same messages
    without it. *)
Theorem keepMessage_liked_redundant (unicodeLower : jsstring -> jsstring)
    (msg : Message) :
  keepMessage unicodeLower msg
  = negb (jsstring_eqb (content msg) [])
    && negb (includes (toLowerCase unicodeLower (content msg)) (lit "attachment"))
    && negb (includes (toLowerCase unicodeLower (content msg)) (lit "like"))
    && negb (existsb nonAscii (content msg)).
Proof.
  unfold keepMessage.
  destruct (includes (toLowerCase unicodeLower (content msg)) (lit "liked a message"))
    eqn:E.
  - apply includes_liked_like in E. rewrite E. cbn [negb].
    now rewrite !andb_false_r.
  - cbn [negb]. now rewrite andb_true_r.
Qed.

(** *** trim *)

Lemma trimStart_noLeadingSpace s : noLeadingSpace (trimStart s).
Proof.
  induction s as [|c s IH]; [exact I|].
  cbn [trimStart]. destruct (isWhiteSpace c) eqn:E; [exact IH | exact E].
Qed.

Lemma trimStart_fixed s : noLeadingSpace s -> trimStart s = s.
Proof.
  destruct s as [|c s]; [reflexivity|].
  cbn [noLeadingSpace trimStart]. now intros ->.
Qed.

Lemma trimStart_snoc s c :
  isWhiteSpace c = false -> trimStart (s ++ [c]) = trimStart s ++ [c].
Proof.
  intros Hc. induction s as [|w s IH]; cbn [app trimStart].
  - now rewrite Hc.
  - destruct (isWhiteSpace w); [exact IH | reflexivity].
Qed.

Lemma trimEnd_noLeadingSpace s : noLeadingSpace s -> noLeadingSpace (trimEnd s).
Proof.
  destruct s as [|c s]; [intros _; exact I|].
  cbn [noLeadingSpace]. intros Hc. unfold trimEnd. cbn [rev].
  rewrite trimStart_snoc by assumption. rewrite rev_app_distr. exact Hc.
Qed.

Lemma trimEnd_twice s : trimEnd (trimEnd s) = trimEnd s.
Proof.
  unfold trimEnd. rewrite rev_involutive.
  now rewrite (trimStart_fixed _ (trimStart_noLeadingSpace (rev s))).
Qed.

Lemma trim_twice s : trim (trim s) = trim s.
Proof.
  unfold trim.
  rewrite (trimStart_fixed _ (trimEnd_noLeadingSpace _ (trimStart_noLeadingSpace s))).
  apply trimEnd_twice.
Qed.

Lemma withContent_same (m : Message) : withContent m (content m) = m.
Proof. now destruct m. Qed.

Lemma filterMessages_In (unicodeLower : jsstring -> jsstring)
    (messages : list Message) (m : Message) :
  In m (filterMessages unicodeLower messages)
  <-> (exists m0, In m0 messages /\ m = withContent m0 (trim (content m0)))
      /\ keepMessage unicodeLower m = true.
Proof.
  unfold filterMessages. rewrite filter_In, in_map_iff.
  split; intros [[m0 H] Hk]; (split; [exists m0|exact Hk]);
    destruct H; now split.
Qed.

(** X10.  Every message [filterMessages] returns is a message of the
    input with its content trimmed and nothing else changed, and that
    content is not empty, has no white space left at either end and holds
    ASCII only. *)
Theorem filterMessages_survivors (unicodeLower : jsstring -> jsstring)
    (messages : list Message) (m : Message) :
  In m (filterMessages unicodeLower messages) ->
  (exists m0, In m0 messages
              /\ content m = trim (content m0)
              /\ sender_name m = sender_name m0
              /\ timestamp_ms m = timestamp_ms m0)
  /\ content m <> []
  /\ trim (content m) = content m
  /\ (forall c, In c (content m) -> (c <= 127)%N)
  /\ ~ Contains (map lowerAscii (content m)) (lit "like")
  /\ ~ Contains (map lowerAscii (content m)) (lit "attachment").
Proof.
  intros Hm.
  apply filterMessages_In in Hm. destruct Hm as [[m0 [Hin ->]] Hk].
  pose proof (keepMessage_ascii _ _ Hk) as Hlow.
  cbn [withContent content sender_name timestamp_ms] in *.
  destruct (Dropped_dec unicodeLower (trim (content m0))) as [Hd|Hd].
  { apply (keepMessage_false unicodeLower (withContent m0 (trim (content m0)))) in Hd.
    congruence. }
  unfold Dropped in Hd. rewrite Hlow in Hd.
  split; [exists m0; now repeat split|].
  split; [tauto|].
  split; [apply trim_twice|].
  split.
  - intros c Hc. destruct (N.le_gt_cases c 127) as [H|H]; [exact H|].
    exfalso. apply Hd. do 4 right. exists c. split; [assumption | lia].
  - split; tauto.
Qed.

Lemma filterMessages_survivors_witness :
  let m := {| sender_name := lit "You"; content := lit " hi "; timestamp_ms := None |} in
  let kept := withContent m (lit "hi") in
  In kept (filterMessages (fun s => s) [m])
  /\ content kept <> []
  /\ trim (content kept) = content kept.
Proof.
  intros m kept.
  assert (Hin : In kept (filterMessages (fun s => s) [m])) by (vm_compute; now left).
  split; [exact Hin|].
  destruct (filterMessages_survivors (fun s => s) [m] kept Hin) as [_ [H1 [H2 _]]].
  now split.
Defined.

(** X11.  Filtering what [filterMessages] returned returns it again. *)
Theorem filterMessages_twice (unicodeLower : jsstring -> jsstring)
    (messages : list Message) :
  filterMessages unicodeLower (filterMessages unicodeLower messages)
  = filterMessages unicodeLower messages.
Proof.
  set (kept := filterMessages unicodeLower messages).
  unfold filterMessages at 1.
  assert (Hmap : map (fun msg => withContent msg (trim (content msg))) kept = kept).
  { rewrite <- (map_id kept) at 2. apply map_ext_in. intros m Hm.
    apply filterMessages_In in Hm. destruct Hm as [[m0 [_ ->]] _].
    cbn [withContent content]. now rewrite trim_twice. }
  rewrite Hmap. apply filter_all. rewrite Forall_forall. intros m Hm.
  now apply filterMessages_In in Hm.
Qed.

(** ** TextNormalizer *)

Lemma hasEscape_occurrence (pre post : jsstring) (h1 h2 h3 h4 : N) :
  isHexDigit h1 = true -> isHexDigit h2 = true ->
  isHexDigit h3 = true -> isHexDigit h4 = true ->
  hasEscape (pre ++ 92 :: 117 :: h1 :: h2 :: h3 :: h4 :: post)%N = true.
Proof.
  intros H1 H2 H3 H4. induction pre as [|c pre IH]; cbn [app].
  - cbn [hasEscape]. rewrite H1, H2, H3, H4. reflexivity.
  - cbn [hasEscape]. rewrite IH. apply orb_true_r.
Qed.

(** X12.  A text in which a backslash, the letter u and four hexadecimal
    digits occur anywhere comes back from [decodeUnicode] as it went in:
    the rewritten text is always rejected by [decodeURIComponent], so no
    escape and no percent-escape of such a text is ever decoded. *)
Theorem decodeUnicode_escape_unchanged (pre post : jsstring) (h1 h2 h3 h4 : N) :
  isHexDigit h1 = true -> isHexDigit h2 = true ->
  isHexDigit h3 = true -> isHexDigit h4 = true ->
  let s := (pre ++ 92 :: 117 :: h1 :: h2 :: h3 :: h4 :: post)%N in
  decodeURIComponent (replaceEscapes s) = None /\ decodeUnicode s = s.
Proof.
  intros H1 H2 H3 H4 s.
  assert (He : hasEscape s = true) by now apply hasEscape_occurrence.
  split; [|now apply decodeUnicode_keeps_escapes].
  pose proof (replaceEscapes_cases s) as Hc. rewrite He in Hc.
  now apply decodeURIComponent_percent_u.
Qed.

Lemma decodeUnicode_escape_unchanged_witness :
  let s := (lit "100%25 " ++ 92 :: 117 :: lit "00e9" ++ lit "!")%N in
  decodeURIComponent (replaceEscapes s) = None /\ decodeUnicode s = s.
Proof.
  apply (decodeUnicode_escape_unchanged (lit "100%25 ") (lit "!") 48 48 101 57);
    reflexivity.
Defined.

(** ** IngestOrchestrator *)

Lemma below_128 (p : N -> bool) :
  forallb p (map N.of_nat (seq 0 128)) = true ->
  forall c, (c < 128)%N -> p c = true.
Proof.
  intros H c Hc. rewrite forallb_forall in H. apply H.
  apply in_map_iff. exists (N.to_nat c). split; [apply N2Nat.id|].
  apply in_seq. lia.
Qed.

Lemma ascii_octet (c : N) :
  (c < 128)%N ->
  N.land c 255 = c /\ N.land c 128 = 0%N /\ (65535 <? c)%N = false
  /\ (55296 <=? c)%N = false.
Proof.
  intros Hc.
  set (p := (fun c => (N.land c 255 =? c) && (N.land c 128 =? 0)
                      && negb (65535 <? c) && negb (55296 <=? c))%N).
  assert (Hall : forallb p (map N.of_nat (seq 0 128)) = true)
    by (vm_compute; reflexivity).
  pose proof (below_128 p Hall Hc) as H. unfold p in H. rewrite !andb_true_iff, !negb_true_iff, !N.eqb_eq in H. tauto.
Qed.

Lemma ucs2decode_ascii (s : jsstring) : isAscii s -> ucs2decode s = s.
Proof.
  induction 1 as [|c s Hc Hs IH]; [reflexivity|].
  cbn [ucs2decode]. destruct s as [|extra s']; [reflexivity|].
  destruct (ascii_octet Hc) as [_ [_ [_ Hhi]]].
  rewrite Hhi. cbn [andb]. now rewrite IH.
Qed.

Lemma utf8decode_ascii (s : jsstring) : isAscii s -> utf8decode s = Some s.
Proof.
  intros Hs. unfold utf8decode. rewrite ucs2decode_ascii by assumption.
  induction Hs as [|c s Hc Hs IH]; [reflexivity|].
  cbn [decodeSymbols].
  destruct (ascii_octet Hc) as [H255 [H128 [Hbig _]]].
  rewrite H255, H128. cbn [N.eqb]. rewrite IH.
  unfold emit, utf16. rewrite Hbig. reflexivity.
Qed.

Lemma forEachStep_log (um : UserMessages) (r : RawMessage) :
  (forall k, inherited k = true -> ownGet um k = None) ->
  snd (forEachStep um r) = skippedLog r.
Proof.
  intros H. unfold forEachStep, incorporate, skippedLog, decodeRecord. cbv zeta.
  destruct (utf8decode (orEmpty (raw_content r))) as [dc|]; [|reflexivity].
  destruct (utf8decode (orEmpty (raw_sender_name r))) as [ds|]; [|reflexivity].
  destruct (inherited ds) eqn:Ei.
  - now rewrite H.
  - now destruct (ownGet um ds).
Qed.

Lemma forEachMessage_grouped (p rest : list RawMessage) :
  forEachMessage (map Some rest) (grouped (ingested p))
  = (Some (grouped (ingested (p ++ rest))), flat_map skippedLog rest).
Proof.
  revert p. induction rest as [|r rest IH]; intros p.
  - cbn [map forEachMessage flat_map]. now rewrite app_nil_r.
  - cbn [map forEachMessage flat_map].
    assert (Hinv : forall k, inherited k = true -> ownGet (grouped (ingested p)) k = None)
      by (intros k; apply grouped_inherited; apply ingested_sender).
    pose proof (forEachStep_decodeRecord _ r Hinv) as Hfst.
    pose proof (forEachStep_log _ r Hinv) as Hsnd.
    destruct (forEachStep (grouped (ingested p)) r) as [um' logged].
    cbn [fst snd] in Hfst, Hsnd. subst logged.
    assert (Hum : um' = grouped (ingested (p ++ [r]))).
    { rewrite Hfst, ingested_snoc. destruct (decodeRecord r) as [e|].
      - apply grouped_snoc.
      - now rewrite app_nil_r. }
    rewrite Hum, IH. now rewrite <- app_assoc.
Qed.

Lemma ingested_cons (r : RawMessage) (messages : list RawMessage) :
  ingested (r :: messages)
  = match decodeRecord r with
    | Some e => [e]
    | None => []
    end ++ ingested messages.
Proof. reflexivity. Qed.

Lemma skippedLog_length (messages : list RawMessage) :
  (length (flat_map skippedLog messages) + length (ingested messages)
   = length messages)%nat.
Proof.
  induction messages as [|r messages IH]; [reflexivity|].
  rewrite ingested_cons. cbn [flat_map].
  rewrite !length_app. unfold skippedLog at 1.
  destruct (decodeRecord r); cbn [length]; lia.
Qed.

(** X13.  An upload whose message array holds records only installs the
    records that come through, grouped by sender: the senders in order of
    first appearance, each with its messages in the order of the document.
    The data held before plays no part, and one decoding error is logged
    for every record left out. *)
Theorem onload_installs_grouping (st : AppState) (messages : list RawMessage) :
  onload st (MessageArray (map Some messages))
  = {| data := Some (grouped (ingested messages));
       console := console st ++ flat_map skippedLog messages |}
  /\ Forall (fun entry => entry = ErrorDecodingMessage)
       (flat_map skippedLog messages)
  /\ (length (flat_map skippedLog messages)
      = length messages - length (ingested messages))%nat.
Proof.
  split; [|split].
  - unfold onload.
    change (@nil (jsstring * list Message)) with (grouped (ingested [])).
    now rewrite forEachMessage_grouped.
  - rewrite Forall_forall. intros entry H. apply in_flat_map in H.
    destruct H as [r [_ H]]. unfold skippedLog in H.
    destruct (decodeRecord r); [contradiction|]. now destruct H.
  - pose proof (skippedLog_length messages). lia.
Qed.

Lemma decodeRecord_ascii (r : RawMessage) :
  isAscii (orEmpty (raw_content r)) ->
  isAscii (orEmpty (raw_sender_name r)) ->
  inherited (orEmpty (raw_sender_name r)) = false ->
  decodeRecord r = Some (plainRecord r).
Proof.
  intros Hc Hs Hi. unfold decodeRecord.
  rewrite !utf8decode_ascii by assumption. now rewrite Hi.
Qed.

(** X14.  Records whose content and sender name are ASCII (a missing one
    counting as empty) and whose sender is not called after an inherited
    member are all taken in with their texts unchanged, and nothing is
    logged. *)
Theorem onload_ascii_batch (st : AppState) (messages : list RawMessage) :
  Forall (fun r => isAscii (orEmpty (raw_content r))
                   /\ isAscii (orEmpty (raw_sender_name r))
                   /\ inherited (orEmpty (raw_sender_name r)) = false)
    messages ->
  onload st (MessageArray (map Some messages))
  = {| data := Some (grouped (map plainRecord messages)); console := console st |}.
Proof.
  intros H.
  assert (Hin : ingested messages = map plainRecord messages
                /\ flat_map skippedLog messages = []).
  { induction H as [|r messages [Hc [Hs Hi]] _ [IH1 IH2]]; [now split|].
    rewrite ingested_cons. cbn [flat_map map].
    unfold skippedLog at 1.
    rewrite (decodeRecord_ascii r Hc Hs Hi), IH1, IH2. now split. }
  destruct Hin as [H1 H2].
  unfold onload.
  change (@nil (jsstring * list Message)) with (grouped (ingested [])).
  rewrite forEachMessage_grouped. cbn [app].
  now rewrite H1, H2, app_nil_r.
Qed.

Lemma onload_ascii_batch_witness :
  let you := {| raw_sender_name := Some (lit "You");
                raw_content := Some (lit "hi");
                raw_timestamp_ms := Some 1000%Z |} in
  let nobody := {| raw_sender_name := None;
                   raw_content := None;
                   raw_timestamp_ms := None |} in
  onload {| data := None; console := [] |} (MessageArray (map Some [you; nobody; you]))
  = {| data := Some [(lit "You", [plainRecord you; plainRecord you]);
                     ([], [plainRecord nobody])];
       console := [] |}.
Proof.
  intros you nobody.
  refine (onload_ascii_batch {| data := None; console := [] |} (messages := [you; nobody; you]) _).
  repeat constructor.
Defined.

Lemma grouped_wellGrouped (kept : list Message) :
  (forall m, In m kept -> inherited (sender_name m) = false) ->
  wellGrouped (grouped kept).
Proof.
  intros Hkept. unfold wellGrouped, grouped. split.
  - rewrite tableOf_keys. apply distinct_NoDup.
  - intros s msgs Hin. unfold tableOf in Hin. apply in_map_iff in Hin.
    destruct Hin as [k [E Hk]]. injection E as -> <-.
    apply distinct_In, in_map_iff in Hk. destruct Hk as [m [Hs Hm]].
    split; [rewrite <- Hs; now apply Hkept|]. split.
    + assert (Hb : In m (bySender kept s)).
      { unfold bySender. apply filter_In. split; [assumption|].
        now apply jsstring_eqb_eq. }
      intros E. rewrite E in Hb. contradiction.
    + rewrite Forall_forall. intros m' Hm'. unfold bySender in Hm'.
      apply filter_In in Hm'. now apply jsstring_eqb_eq.
Qed.

Lemma forEachMessage_records (messages : list (option RawMessage))
    (um um' : UserMessages) :
  fst (forEachMessage messages um) = Some um' ->
  exists records, messages = map Some records.
Proof.
  revert um. induction messages as [|[r|] messages IH]; intros um H.
  - now exists [].
  - cbn [forEachMessage] in H.
    destruct (forEachStep um r) as [um1 logged].
    destruct (forEachMessage messages um1) as [res logged'] eqn:E.
    cbn [fst] in H. subst res.
    destruct (IH um1) as [records ->]; [now rewrite E|].
    now exists (r :: records).
  - discriminate.
Qed.

(** X15.  Every mapping the handler installs is well grouped: no sender
    occurs twice, no sender has the name of an inherited member, every
    sender has at least one message, and the messages under a sender all
    carry that sender's name.  As the page starts without data, this holds
    of the data at all times. *)
Theorem onload_keeps_wellGrouped (st : AppState) (parsed : ParseOutcome) :
  (forall um, data st = Some um -> wellGrouped um) ->
  forall um, data (onload st parsed) = Some um -> wellGrouped um.
Proof.
  intros Hst um Hum. destruct parsed as [| |messages]; try (now apply Hst).
  rewrite onload_data in Hum.
  destruct (fst (forEachMessage messages [])) as [um'|] eqn:E; [|now apply Hst].
  injection Hum as <-.
  destruct (forEachMessage_records _ _ E) as [records ->].
  rewrite forEachMessage_fold in E. injection E as <-.
  rewrite fold_forEachStep. apply grouped_wellGrouped, ingested_sender.
Qed.

Lemma onload_keeps_wellGrouped_witness :
  let from := fun s =>
    {| raw_sender_name := Some (lit s);
       raw_content := Some (lit "hi");
       raw_timestamp_ms := Some 1000%Z |} in
  wellGrouped
    [(lit "You", [plainRecord (from "You"); plainRecord (from "You")]);
     (lit "Bob", [plainRecord (from "Bob")])]%string.
Proof.
  intros from.
  apply (onload_keeps_wellGrouped {| data := None; console := [] |}
           (MessageArray (map Some [from "You"; from "Bob"; from "toString"; from "You"]%string))).
  - intros um H. discriminate.
  - reflexivity.
Defined.

Lemma forEachMessage_null (messages : list (option RawMessage)) (um : UserMessages) :
  In None messages -> fst (forEachMessage messages um) = None.
Proof.
  revert um. induction messages as [|[r|] messages IH]; intros um H.
  - contradiction.
  - destruct H as [H|H]; [discriminate|].
    cbn [forEachMessage]. destruct (forEachStep um r) as [um1 logged].
    specialize (IH um1 H).
    now destruct (forEachMessage messages um1).
  - reflexivity.
Qed.

(** X16.  One [null] among the elements of the message array abandons the
    whole upload, wherever it stands: the data held before stays, the
    records before the [null] are not installed, and the parse error is
    the last thing logged. *)
Theorem onload_null_element (st : AppState) (messages : list (option RawMessage)) :
  In None messages ->
  data (onload st (MessageArray messages)) = data st
  /\ exists logged,
       console (onload st (MessageArray messages))
       = console st ++ logged ++ [ErrorParsingJSON].
Proof.
  intros H. pose proof (forEachMessage_null messages [] H) as E.
  unfold onload. destruct (forEachMessage messages []) as [[um|] logged].
  - discriminate.
  - split; [reflexivity|]. now exists logged.
Qed.

Lemma onload_null_element_witness :
  let you := {| raw_sender_name := Some (lit "You");
                raw_content := Some (lit "hi");
                raw_timestamp_ms := Some 1000%Z |} in
  let st := {| data := Some [(lit "Bob", [plainRecord you])]; console := [] |} in
  data (onload st (MessageArray [Some you; None; Some you])) = data st
  /\ exists logged,
       console (onload st (MessageArray [Some you; None; Some you]))
       = console st ++ logged ++ [ErrorParsingJSON].
Proof.
  intros you st.
  apply (onload_null_element st [Some you; None; Some you]).
  right. now left.
Defined.

(** ** From the data to the lists and charts *)

Lemma concat_nil_map (A B : Type) (ks : list A) :
  concat (map (fun _ => @nil B) ks) = [].
Proof. induction ks as [|k ks IH]; [reflexivity | exact IH]. Qed.

Lemma bySender_cons_other (m : Message) (kept : list Message) (ks : list jsstring) :
  ~ In (sender_name m) ks ->
  map (bySender (m :: kept)) ks = map (bySender kept) ks.
Proof.
  intros H. apply map_ext_in. intros k Hk. unfold bySender. cbn [filter].
  rewrite jsstring_eqb_neq; [reflexivity|]. intros E. apply H. now rewrite E.
Qed.

(** Laying the groups end to end gives back the messages, in another
    order. *)
Lemma concat_bySender (kept : list Message) (ks : list jsstring) :
  NoDup ks ->
  (forall m, In m kept -> In (sender_name m) ks) ->
  Permutation (concat (map (bySender kept) ks)) kept.
Proof.
  intros Hnd. induction kept as [|m kept IH]; intros Hks.
  - unfold bySender. cbn [filter]. rewrite concat_nil_map. apply perm_nil.
  - destruct (in_split _ _ (Hks m (or_introl eq_refl))) as [ks1 [ks2 E]].
    assert (Hout : ~ In (sender_name m) (ks1 ++ ks2))
      by (rewrite E in Hnd; now apply NoDup_remove_2 in Hnd).
    assert (IH' : Permutation (concat (map (bySender kept) ks)) kept)
      by (apply IH; intros m' Hm'; apply Hks; now right).
    rewrite E in IH' |- *.
    rewrite map_app, concat_app in IH' |- *. cbn [map concat] in IH' |- *.
    rewrite !bySender_cons_other
      by (intros H; apply Hout, in_or_app; (now left) || now right).
    unfold bySender at 2. cbn [filter]. rewrite jsstring_eqb_refl.
    fold (bySender kept (sender_name m)). cbn [app].
    eapply perm_trans; [apply Permutation_sym, Permutation_middle|].
    now apply perm_skip.
Qed.

Lemma values_grouped (kept : list Message) :
  values (grouped kept)
  = map (bySender kept) (enumerationOrder (distinct (map sender_name kept))).
Proof.
  unfold values, grouped. rewrite entries_tableOf. unfold tableOf.
  rewrite map_map. reflexivity.
Qed.

Lemma enumerationOrder_NoDup (ks : list jsstring) :
  NoDup ks -> NoDup (enumerationOrder ks).
Proof.
  intros H. eapply Permutation_NoDup; [|exact H].
  apply Permutation_sym, enumerationOrder_perm.
Qed.

Lemma concat_values_grouped (kept : list Message) :
  Permutation (concat (values (grouped kept))) kept.
Proof.
  rewrite values_grouped. apply concat_bySender.
  - apply enumerationOrder_NoDup, distinct_NoDup.
  - intros m Hm. apply enumerationOrder_In, distinct_In. now apply in_map.
Qed.

(** X17.  Grouping by sender and flattening again loses and invents
    nothing: after an upload [allMessages] holds the records that came
    through, each once, with [decodeUnicode] applied to its content. *)
Theorem allMessages_after_upload (st : AppState) (messages : list RawMessage) :
  let shown := allMessages (data (onload st (MessageArray (map Some messages)))) in
  Permutation shown
    (map (fun msg => withContent msg (decodeUnicode (content msg))) (ingested messages))
  /\ length shown = length (ingested messages).
Proof.
  intros shown. unfold shown. rewrite onload_grouped. cbn [allMessages].
  split.
  - apply Permutation_map, concat_values_grouped.
  - rewrite length_map. apply Permutation_length, concat_values_grouped.
Qed.

Lemma list_sum_perm (l l' : list nat) :
  Permutation l l' -> list_sum l = list_sum l'.
Proof.
  induction 1 as [| x l l' _ IH | x y l | l l' l'' _ IH1 _ IH2]; simpl; lia.
Qed.

Lemma length_concat_map (A B : Type) (f : A -> list B) (ks : list A) :
  length (concat (map f ks)) = list_sum (map (fun k => length (f k)) ks).
Proof.
  induction ks as [|k ks IH]; [reflexivity|].
  simpl. now rewrite length_app, IH.
Qed.

Lemma rankingAll_sum (count : jsstring -> nat) (ks : list jsstring) :
  list_sum (map snd (rankingAll count ks)) = list_sum (map count ks).
Proof.
  rewrite (list_sum_perm (Permutation_map snd (rankingAll_perm count ks))).
  unfold tableOf. now rewrite map_map.
Qed.

(** X18.  The numbers of the sender chart never add up to more than the
    number of records taken in, and with at most seven senders they add up
    to exactly that number. *)
Theorem getChartData_total (st : AppState) (messages : list RawMessage) :
  let chart := getChartData (data (onload st (MessageArray (map Some messages)))) in
  let senders := distinct (map sender_name (ingested messages)) in
  exists counts,
    datasets chart = [counts]
    /\ length counts = length (labels chart)
    /\ (list_sum counts <= length (ingested messages))%nat
    /\ ((length senders <= 7)%nat -> list_sum counts = length (ingested messages)).
Proof.
  intros chart senders. unfold chart.
  rewrite onload_grouped, getChartData_grouped. cbn [datasets labels].
  set (kept := ingested messages).
  set (count := fun s => length (bySender kept s)).
  set (order := enumerationOrder (distinct (map sender_name kept))).
  exists (map snd (ranking count order)).
  assert (Hall : list_sum (map snd (rankingAll count order)) = length kept).
  { rewrite rankingAll_sum. unfold count.
    rewrite <- length_concat_map. apply Permutation_length.
    unfold order. rewrite <- values_grouped. apply concat_values_grouped. }
  split; [reflexivity|]. split; [now rewrite !length_map|]. split.
  - rewrite <- Hall. rewrite (ranking_split count order) at 1.
    rewrite map_app, list_sum_app. lia.
  - intros Hlen. rewrite <- Hall. unfold ranking. rewrite firstn_all2; [reflexivity|].
    unfold rankingAll. rewrite sortBy_length. unfold tableOf.
    rewrite length_map. unfold order. now rewrite enumerationOrder_length.
Qed.

(** *** The bar chart, whatever the texts *)

Lemma ownSet_keys (V : Type) (o : object V) (k : jsstring) (v : V) :
  map fst (ownSet o k v)
  = if jsstring_in_dec k (map fst o) then map fst o else map fst o ++ [k].
Proof.
  induction o as [|[k0 v0] o IH].
  - reflexivity.
  - cbn [ownSet map fst].
    destruct (jsstring_eqb k0 k) eqn:E.
    + apply jsstring_eqb_eq in E. subst k0. cbn [map fst].
      destruct (jsstring_in_dec k (k :: map fst o)) as [_|H]; [reflexivity|].
      exfalso. apply H. now left.
    + assert (k0 <> k) by (intros ->; rewrite jsstring_eqb_refl in E; discriminate).
      cbn [map fst]. rewrite IH.
      destruct (jsstring_in_dec k (map fst o)) as [Hin|Hnin];
        destruct (jsstring_in_dec k (k0 :: map fst o)) as [Hin'|Hnin'];
        try reflexivity.
      * exfalso. apply Hnin'. now right.
      * exfalso. destruct Hin'; contradiction.
Qed.

Lemma tallyMessage_keys (o : object tally) (k : jsstring) :
  map fst (tallyMessage o k) = map fst o
  \/ (~ In k (map fst o) /\ map fst (tallyMessage o k) = map fst o ++ [k]).
Proof.
  unfold tallyMessage.
  assert (H : forall v, map fst (ownSet o k v) = map fst o
                        \/ (~ In k (map fst o)
                            /\ map fst (ownSet o k v) = map fst o ++ [k])).
  { intros v. rewrite ownSet_keys.
    destruct (jsstring_in_dec k (map fst o)); [now left | now right]. }
  destruct (ownGet o k) as [[n|ones]|]; try apply H.
  destruct (jsstring_eqb k (lit "__proto__")); [now left|].
  destruct (inherited k); apply H.
Qed.

Lemma fold_tallyMessage_keys (p : list jsstring) :
  NoDup (map fst (fold_left tallyMessage p []))
  /\ forall k, In k (map fst (fold_left tallyMessage p [])) -> In k p.
Proof.
  induction p as [|k p [IH1 IH2]] using rev_ind.
  - split; [constructor | intros k []].
  - rewrite fold_left_app. cbn [fold_left].
    destruct (tallyMessage_keys (fold_left tallyMessage p []) k) as [E|[Hk E]];
      rewrite E.
    + split; [assumption|]. intros k' Hk'. apply in_or_app. left. now apply IH2.
    + split.
      * apply NoDup_app; [assumption | repeat constructor; intros [] |].
        intros x Hx [<-|[]]. contradiction.
      * intros k' Hk'. apply in_app_or in Hk'. apply in_or_app.
        destruct Hk' as [Hk'|Hk']; [left; now apply IH2 | now right].
Qed.

Lemma entries_perm (V : Type) (o : object V) : Permutation (entries o) o.
Proof.
  unfold entries. eapply perm_trans.
  - apply Permutation_app_tail. apply sortBy_perm.
  - induction o as [|e o IH]; [apply perm_nil|].
    cbn [filter]. destruct (isIndexed e); cbn [negb app].
    + now apply perm_skip.
    + apply Permutation_sym. eapply perm_trans.
      * apply perm_skip. apply Permutation_sym. exact IH.
      * apply Permutation_middle.
Qed.

(** X19.  Whatever the messages, texts named after inherited members
    included, the bar chart has at most seven labels, no label twice, as
    many values as labels, and every label is the trimmed content of a
    message that passes the filter. *)
Theorem getTopMessages_labels (unicodeLower : jsstring -> jsstring)
    (messages : list Message) :
  let chart := getTopMessages unicodeLower messages in
  (length (labels chart) <= 7)%nat
  /\ NoDup (labels chart)
  /\ (exists values, datasets chart = [values]
                     /\ length values = length (labels chart))
  /\ forall label, In label (labels chart) ->
       exists m, In m (filterMessages unicodeLower messages) /\ content m = label.
Proof.
  intros chart. unfold chart, getTopMessages. cbv zeta. cbn [labels datasets].
  rewrite fold_left_map, slice_prefix by lia. change (Z.to_nat 7) with 7%nat.
  set (texts := map content (filterMessages unicodeLower messages)).
  set (o := fold_left tallyMessage texts []).
  set (sorted := sortBy _ (entries o)).
  destruct (fold_tallyMessage_keys texts) as [Hnd Hsub]. fold o in Hnd, Hsub.
  assert (Hperm : Permutation (map fst sorted) (map fst o)).
  { apply Permutation_map. unfold sorted.
    eapply perm_trans; [apply sortBy_perm | apply entries_perm]. }
  split; [rewrite length_map; apply firstn_le_length|].
  split.
  { assert (H : NoDup (map fst sorted))
      by (eapply Permutation_NoDup; [apply Permutation_sym; exact Hperm | exact Hnd]).
    rewrite <- (firstn_skipn 7 sorted), map_app in H.
    now apply NoDup_app_remove_r in H. }
  split; [eexists; split; [reflexivity | now rewrite !length_map]|].
  intros label Hl. rewrite <- firstn_map in Hl. apply In_firstn_list in Hl.
  apply (Permutation_in _ Hperm), Hsub in Hl. unfold texts in Hl.
  apply in_map_iff in Hl. destruct Hl as [m [E Hm]]. now exists m.
Qed.

Lemma keepMessage_content (unicodeLower : jsstring -> jsstring) (m m' : Message) :
  content m = content m' -> keepMessage unicodeLower m = keepMessage unicodeLower m'.
Proof. intros E. unfold keepMessage. now rewrite E. Qed.

Lemma filterMessages_contents (unicodeLower : jsstring -> jsstring)
    (messages : list Message) :
  map content (filterMessages unicodeLower messages)
  = filter (fun c => keepMessage unicodeLower (mkMessage [] c None))
      (map (fun m => trim (content m)) messages).
Proof.
  unfold filterMessages. induction messages as [|m messages IH]; [reflexivity|].
  cbn [map filter].
  rewrite (keepMessage_content unicodeLower
             (withContent m (trim (content m)))
             (mkMessage [] (trim (content m)) None)) by reflexivity.
  destruct (keepMessage unicodeLower (mkMessage [] (trim (content m)) None));
    cbn [map]; now rewrite IH.
Qed.

(** X20.  The bar chart depends on the messages through their trimmed
    contents only: senders, timestamps and the white space around a text
    play no part. *)
Theorem getTopMessages_trimmed_contents (unicodeLower : jsstring -> jsstring)
    (messages messages' : list Message) :
  map (fun m => trim (content m)) messages
  = map (fun m => trim (content m)) messages' ->
  getTopMessages unicodeLower messages = getTopMessages unicodeLower messages'.
Proof.
  intros H. unfold getTopMessages. cbv zeta.
  rewrite !(fold_left_map tallyMessage (@content)).
  now rewrite !filterMessages_contents, H.
Qed.

Lemma getTopMessages_trimmed_contents_witness :
  getTopMessages (fun s => s)
    [{| sender_name := lit "You"; content := lit "  ok "; timestamp_ms := Some 5%Z |};
     {| sender_name := lit "You"; content := lit "ok"; timestamp_ms := None |}]
  = getTopMessages (fun s => s)
      [{| sender_name := lit "Bob"; content := lit "ok"; timestamp_ms := None |};
       {| sender_name := lit "Ann"; content := lit "ok   "; timestamp_ms := Some 9%Z |}].
Proof.
  apply getTopMessages_trimmed_contents. reflexivity.
Defined.

(** X21.  The two lists of the page are the last six and the first six of
    the sorted messages, so each holds at most six; when no more than six
    messages carry a timestamp other than 0, the two lists are the
    same. *)
Theorem page_lists (data : option UserMessages) :
  let sorted := getSortedMessagesAscending (allMessages data) in
  latestMessages data = skipn (length sorted - 6) sorted
  /\ earliestMessages data = firstn 6 sorted
  /\ length (latestMessages data) = Nat.min 6 (length sorted)
  /\ length (earliestMessages data) = Nat.min 6 (length sorted)
  /\ ((length sorted <= 6)%nat -> latestMessages data = earliestMessages data).
Proof.
  intros sorted. unfold latestMessages, earliestMessages.
  change 6%Z with (Z.of_nat 6).
  rewrite getLatestMessages_positive by lia.
  rewrite getEarliestMessages_prefix. fold sorted. unfold lastElements.
  split; [reflexivity|]. split; [reflexivity|].
  split; [rewrite length_skipn; lia|]. split; [apply length_firstn|].
  intros Hlen. replace (length sorted - 6)%nat with 0%nat by lia.
  cbn [skipn]. symmetry. now apply firstn_all2.
Qed.
